(** * MazeClause and MazeKnowledgeBase: a shallow embedding

    The two Python classes of the repository, [MazeClause]
    (maze_clause.py) and [MazeKnowledgeBase] (maze_knowledge_base.py),
    are embedded as Rocq functions and the properties stated about them
    are settled on these definitions.

    Modelling conventions.
    - A Python [dict] from propositions to truth values is a
      [gmap proposition bool]; a Python [set] of clauses is a
      [gset clause].
    - A set of clauses is modelled by the clauses it holds, and [add],
      [update], [issubset], [in], [|] and [-] by the operations on
      finite sets. A Python set compares its elements by [__hash__]
      first and by [__eq__] second, and [__eq__] of a clause reads the
      keys and the valid flag only: two clauses with the same keys, the
      same valid flag and the same hash are one element for a Python
      set, and two elements here. The results about stores are the ones
      that this difference leaves alone: they hold for the clauses a
      Python set holds whichever of two such clauses it keeps, or they
      carry the hypothesis that no two such clauses meet.
    - [hash c] is the value that [__hash__] hands to the builtin
      [hash], not the integer [hash] returns: equal values have equal
      hashes, and nothing is assumed of the hashes of different values.
    - The iteration order of a Python set is not fixed by the language.
      Every loop over a set takes the visiting order as a list, and the
      results about such loops either hold for every order or say which
      orders they are about. *)

From stdpp Require Import gmap strings pretty list fin_maps fin_sets.

Set Default Proof Using "Type".
Set Warnings "-clear-no-such-hyp".

(** ** Propositions *)

(** [(symbol, (x, y))], the key type of a clause's dictionary. *)
Definition proposition : Type := string * (Z * Z).

Definition literal : Type := proposition * bool.

(** ** maze_clause.py *)

Module MazeClause.

(** The two attributes set by [__init__]. *)
Record t : Type := mk { props : gmap proposition bool; valid : bool }.

Global Instance t_eq_dec : EqDecision t.
Proof. solve_decision. Defined.

Definition to_pair (c : t) : gmap proposition bool * bool := (props c, valid c).
Definition of_pair (p : gmap proposition bool * bool) : t := mk p.1 p.2.

Global Instance t_countable : Countable t.
Proof. apply (inj_countable' to_pair of_pair). by intros []. Defined.

(** The [for] loop of [__init__]: [m] is [self.props] so far. The
    [return] inside the loop leaves the clause valid with a cleared
    dictionary, whatever remains of the input. *)
Fixpoint init_loop (m : gmap proposition bool) (l : list literal) : t :=
  match l with
  | [] => mk m false
  | (prop, truth_value) :: rest =>
      match m !! prop with
      | Some b =>
          if bool_decide (b ≠ truth_value) then mk ∅ true
          else init_loop m rest
      | None => init_loop (<[prop := truth_value]> m) rest
      end
  end.

(** [MazeClause(props)] *)
Definition init (l : list literal) : t := init_loop ∅ l.

(** [get_prop]: [None] when the proposition is not a key. *)
Definition get_prop (c : t) (prop : proposition) : option bool :=
  if bool_decide (prop ∉ dom (props c)) then None else props c !! prop.

Definition is_valid (c : t) : bool := valid c.

Definition len (c : t) : nat := size (props c).

Definition is_empty (c : t) : bool :=
  negb (valid c) && bool_decide (size (props c) = 0).

(** [__eq__] on two clauses: the key sets and the valid flags. *)
Definition eq (c other : t) : bool :=
  bool_decide (dom (props c) = dom (props other))
  && bool_decide (valid c = valid other).

(** [frozenset(self.props.items())] *)
Definition items (c : t) : gset literal := list_to_set (map_to_list (props c)).

(** [__hash__]: the value handed to the builtin [hash]. *)
Definition hash (c : t) : gset literal * bool := (items c, valid c).

(** [str] of a truth value, and of what [dict.get] returns. *)
Definition str_bool (b : bool) : string := if b then "True" else "False".

Definition str_get (o : option bool) : string :=
  match o with Some b => str_bool b | None => "None" end.

(** [_prop_str]; [pretty] writes an integer in decimal, as [str]
    does. *)
Definition _prop_str (prop : proposition) : string :=
  "(" +:+ prop.1 +:+ ", (" +:+ pretty prop.2.1 +:+ "," +:+ pretty prop.2.2 +:+ "))".

(** What one round of the loop of [__str__] writes before the
    separator. *)
Definition item_str (c : t) (prop : proposition) : string :=
  (_prop_str prop +:+ ":") +:+ str_get (props c !! prop).

(** The loop of [__str__] over the keys [it], in the order of the
    dictionary. *)
Fixpoint str_loop (c : t) (it : list proposition) (result : string) : string :=
  match it with
  | [] => result
  | prop :: rest => str_loop c rest (result +:+ (item_str c prop +:+ " v "))
  end.

(** [s[:-3]] *)
Definition drop_last3 (s : string) : string :=
  String.substring 0 (String.length s - 3) s.

(** [__str__], with [it] the keys of [self.props] in dictionary order. *)
Definition str_from (it : list proposition) (c : t) : string :=
  if valid c then "{True}"
  else drop_last3 (str_loop c it "{") +:+ "}".

(** The test of the first loop of [resolve]:
    [prop in c2.props and c1.props[prop] != c2.props[prop]], for a key
    [prop] of [c1.props]. *)
Definition is_complementary (c1 c2 : t) (prop : proposition) : bool :=
  match props c1 !! prop, props c2 !! prop with
  | Some b1, Some b2 => negb (eqb b1 b2)
  | _, _ => false
  end.

(** The first loop of [resolve], visiting the keys of [c1.props] in the
    order [it]. *)
Definition complementary_from (it : list proposition) (c1 c2 : t) : list proposition :=
  filter (λ prop, is_complementary c1 c2 prop) it.

Definition complementary_props (c1 c2 : t) : list proposition :=
  complementary_from (map_to_list (props c1)).*1 c1 c2.

(** [{**c1.props, **c2.props}]: on a shared key the value of [c2]
    wins, which is the left-biased union with [c2] on the left. *)
Definition merge_props (c1 c2 : t) : gmap proposition bool :=
  props c2 ∪ props c1.

(** [resolve(c1, c2)] *)
Definition resolve (c1 c2 : t) : gset t :=
  match complementary_props c1 c2 with
  | [complementary_prop] =>
      let new_props := delete complementary_prop (merge_props c1 c2) in
      let new_clause := init (map_to_list new_props) in
      if valid new_clause then ∅ else {[ new_clause ]}
  | _ => ∅
  end.

End MazeClause.

Abbreviation clause := MazeClause.t.

(** ** maze_knowledge_base.py *)

Module MazeKnowledgeBase.

Import MazeClause.

(** *** Set objects and the store object

    A Python set is a mutable object reached through references. The
    heap maps a reference to the current content of the set it names;
    [add] and [update] change that content in place, [deepcopy], [|],
    [-] and [set()] make a new object. *)

Abbreviation ref := nat.
Abbreviation heap := (gmap ref (gset clause)).

(** A [MazeKnowledgeBase] instance: its one attribute, [self.clauses],
    holds a reference to a set object. *)
Record t : Type := mk { clauses : ref }.

Global Instance t_eq_dec : EqDecision t.
Proof. solve_decision. Defined.

(** Computations over the heap that may fail: on a dangling reference,
    and when the iteration budget of a [while True] loop is used up. *)
Definition M (A : Type) : Type := heap → option (A * heap).

Definition ret {A} (a : A) : M A := λ h, Some (a, h).
Definition bind {A B} (m : M A) (k : A → M B) : M B :=
  λ h, match m h with Some (a, h') => k a h' | None => None end.
Definition fail {A} : M A := λ _, None.

#[local] Notation "x <- m ;; k" := (bind m (λ x, k))
  (at level 100, m at next level, right associativity).
#[local] Notation "m ;;; k" := (bind m (λ _, k))
  (at level 100, right associativity).

(** A new set object holding [s]. *)
Definition new_set (s : gset clause) : M ref :=
  λ h, let r := fresh (dom h) in Some (r, <[r := s]> h).

(** The content of the set object [r]. *)
Definition get (r : ref) : M (gset clause) :=
  λ h, match h !! r with Some s => Some (s, h) | None => None end.

(** [r.update(s)], in place, on the clauses held (see the conventions
    on sets). *)
Definition set_update (r : ref) (s : gset clause) : M unit :=
  λ h, match h !! r with Some s0 => Some (tt, <[r := s0 ∪ s]> h) | None => None end.

(** [r.add(c)], in place. *)
Definition set_add (r : ref) (c : clause) : M unit := set_update r {[ c ]}.

(** [MazeKnowledgeBase()] *)
Definition init : M t := r <- new_set ∅ ;; ret (mk r).

(** [tell] *)
Definition tell (self : t) (c : clause) : M unit := set_add (clauses self) c.

(** [itertools.combinations(it, 2)] on the sequence [it]. *)
Fixpoint combinations {A} (it : list A) : list (A * A) :=
  match it with
  | [] => []
  | x :: rest => (pair x <$> rest) ++ combinations rest
  end.

(** The [for] loop of [ask] over the pairs [ps], with [new] the
    reference of the accumulator. The result is [true] when the loop
    left the function by [return True]. *)
Fixpoint for_pairs (ps : list (clause * clause)) (new : ref) : M bool :=
  match ps with
  | [] => ret false
  | (clause1, clause2) :: rest =>
      let resolved_clauses := resolve clause1 clause2 in
      if bool_decide (MazeClause.init [] ∈ resolved_clauses) then ret true
      else set_update new resolved_clauses ;;; for_pairs rest new
  end.

(** The [while True] loop of [ask]; [fuel] bounds the number of rounds.
    The working set is visited in the order of [elements]; whether a
    round finds the empty clause, and which clauses its pairs resolve
    to, is the same for every other order ([for_loop_order] below).
    [issubset] and [update] are read on the clauses held. *)
Fixpoint ask_loop (fuel : nat) (temp_kb new : ref) : M bool :=
  match fuel with
  | 0 => fail
  | S fuel' =>
      it <- get temp_kb ;;
      returned <- for_pairs (combinations (elements it)) new ;;
      if (returned : bool) then ret true
      else
        n <- get new ;;
        k <- get temp_kb ;;
        if bool_decide (n ⊆ k) then ret false
        else set_update temp_kb n ;;; ask_loop fuel' temp_kb new
  end.

(** The clause that [ask] adds to its working set: every truth value of
    the query flipped. *)
Definition negated_query (query : clause) : clause :=
  let negated_props := negb <$> props query in
  MazeClause.init (map_to_list negated_props).

(** [ask] *)
Definition ask (fuel : nat) (self : t) (query : clause) : M bool :=
  stored <- get (clauses self) ;;
  temp_kb <- new_set stored ;;
  set_add temp_kb (negated_query query) ;;;
  new <- new_set ∅ ;;
  ask_loop fuel temp_kb new.

(** [__len__] of the store (named apart from the [len] of clauses): the
    number of clauses stored. *)
Definition kb_len (self : t) : M nat :=
  stored <- get (clauses self) ;; ret (size stored).

(** *** Simplification *)

Abbreviation location := (Z * Z)%type.

(** The [for] loop of [get_simplified_clauses] over the clauses [it],
    in visiting order, with the accumulators [to_add] and [to_rem]. The
    [break] ends the loop at the first clause that holds
    [("P", loc)] with the truth value [is_pit]. *)
Fixpoint simplify_loop (it : list clause) (loc : location) (is_pit : bool)
    (to_add to_rem : gset clause) : gset clause * gset clause :=
  match it with
  | [] => (to_add, to_rem)
  | c :: rest =>
      if bool_decide (len c = 1) then simplify_loop rest loc is_pit to_add to_rem
      else if bool_decide (get_prop c ("P"%string, loc) = Some is_pit)
      then (to_add, to_rem ∪ {[ c ]})
      else
        let sani_clause := MazeClause.init [(("P"%string, loc), is_pit)] in
        simplify_loop rest loc is_pit (to_add ∪ resolve c sani_clause) to_rem
  end.

(** [get_simplified_clauses], where [it] is the order in which the loop
    visits [clauses]. *)
Definition get_simplified_clauses_from (it : list clause)
    (clauses : gset clause) (loc : location) (is_pit : bool) : gset clause :=
  let '(to_add, to_rem) := simplify_loop it loc is_pit ∅ ∅ in
  (clauses ∪ to_add) ∖ to_rem.

(** [get_simplified_clauses] with the visiting order left open: any
    enumeration of the set. *)
Definition get_simplified_clauses (clauses : gset clause) (loc : location)
    (is_pit : bool) (res : gset clause) : Prop :=
  ∃ it, it ≡ₚ elements clauses ∧ res = get_simplified_clauses_from it clauses loc is_pit.

(** The loop of [simplify_from_known_locs] over the locations [locs],
    in visiting order. *)
Inductive simplify_locs (known_pits : gset location) :
    list location → gset clause → gset clause → Prop :=
  | simplify_locs_nil clauses :
      simplify_locs known_pits [] clauses clauses
  | simplify_locs_cons loc locs clauses clauses' res :
      get_simplified_clauses clauses loc (bool_decide (loc ∈ known_pits)) clauses' →
      simplify_locs known_pits locs clauses' res →
      simplify_locs known_pits (loc :: locs) clauses res.

(** [simplify_from_known_locs]: [known_pits | known_safe] is visited in
    any order. *)
Definition simplify_from_known_locs (clauses : gset clause)
    (known_pits known_safe : gset location) (res : gset clause) : Prop :=
  ∃ locs, locs ≡ₚ elements (known_pits ∪ known_safe)
          ∧ simplify_locs known_pits locs clauses res.

(** [simplify_self]: [self.clauses] is bound to what
    [simplify_from_known_locs] returns, which is the set object it was
    given when there is no location to visit, and a new set object
    otherwise. The relation holds between the store and heap before the
    call and the store and heap after it. *)
Definition simplify_self (self : t) (known_pits known_safe : gset location)
    (h : heap) (self' : t) (h' : heap) : Prop :=
  ∃ stored res,
    h !! clauses self = Some stored
    ∧ simplify_from_known_locs stored known_pits known_safe res
    ∧ if decide (known_pits ∪ known_safe = ∅) then self' = self ∧ h' = h
      else new_set res h = Some (clauses self', h').

(** An executable instance: every loop visits its set in the order of
    [elements]. *)
Definition simplify_from_known_locs_run (clauses : gset clause)
    (known_pits known_safe : gset location) : gset clause :=
  foldl (λ cs loc, get_simplified_clauses_from (elements cs) cs loc
                     (bool_decide (loc ∈ known_pits)))
        clauses (elements (known_pits ∪ known_safe)).

(** [simplify_self] with these visiting orders. *)
Definition simplify_self_run (self : t) (known_pits known_safe : gset location) : M t :=
  stored <- get (clauses self) ;;
  if decide (known_pits ∪ known_safe = ∅) then ret self
  else
    r <- new_set (simplify_from_known_locs_run stored known_pits known_safe) ;;
    ret (mk r).

(** The set of clauses that the store [self] holds in the heap [h]. *)
Definition held (self : t) (h : heap) : option (gset clause) := h !! clauses self.

End MazeKnowledgeBase.


(** ** Propositional reading of clauses and stores *)

Module Semantics.

Import MazeClause.

Definition valuation : Type := proposition → bool.

(** A clause is the disjunction of its literals; a valid clause is
    true. *)
Definition sat_clause (v : valuation) (c : clause) : Prop :=
  valid c = true ∨ map_Exists (λ prop b, v prop = b) (props c).

Global Instance sat_clause_dec v c : Decision (sat_clause v c).
Proof. unfold sat_clause. apply _. Defined.

(** The empty clause and the valid clauses built by [__init__] take no
    part in resolution; [lax_sat] lets them pass. *)
Definition lax_sat (v : valuation) (c : clause) : Prop :=
  props c = ∅ ∨ sat_clause v c.

(** A set of clauses is their conjunction. *)
Definition sat_store (v : valuation) (s : gset clause) : Prop :=
  ∀ c, c ∈ s → sat_clause v c.

Definition entails (s : gset clause) (c : clause) : Prop :=
  ∀ v, sat_store v s → sat_clause v c.

Definition equivalent (s1 s2 : gset clause) : Prop :=
  ∀ v, sat_store v s1 ↔ sat_store v s2.

(** The propositions that two clauses share with opposite truth
    values. *)
Definition complementary (c1 c2 : clause) : gset proposition :=
  filter (λ prop, ∃ b, props c1 !! prop = Some b ∧ props c2 !! prop = Some (negb b))
         (dom (props c1)).

(** A valuation makes some literal of the dictionary true. *)
Definition sat_props (v : valuation) (m : gmap proposition bool) : Prop :=
  map_Exists (λ prop b, v prop = b) m.

(** A valuation under which every known pit is a pit and every other
    known location is not, as [simplify_from_known_locs] reads its two
    sets: a location in both counts as a pit. *)
Definition agrees_with_known (v : valuation) (known_pits known_safe : gset (Z * Z)) : Prop :=
  ∀ loc, loc ∈ known_pits ∪ known_safe →
    v ("P"%string, loc) = bool_decide (loc ∈ known_pits).

(** What [__init__] can build: a valid clause stores no proposition. *)
Definition well_formed (c : clause) : Prop :=
  valid c = true → props c = ∅.

End Semantics.

(** ** The loop of [ask] on set values

    What the rounds of [ask] compute, as functions of the contents of
    the working set and of the accumulator. [ask_loop_run] below shows
    that [ask_loop] computes exactly this on the heap. *)

Module Saturation.

Import MazeClause.

(** Some pair resolves to the empty clause: the [for] loop returns. *)
Definition refuted (ps : list (clause * clause)) : bool :=
  existsb (λ p, bool_decide (MazeClause.init [] ∈ resolve p.1 p.2)) ps.

(** All resolvents of the pairs. *)
Definition resolvents (ps : list (clause * clause)) : gset clause :=
  ⋃ ((λ p, resolve p.1 p.2) <$> ps).

(** The content of the accumulator when the [for] loop is left, having
    started from [new]. *)
Fixpoint accumulated (ps : list (clause * clause)) (new : gset clause) : gset clause :=
  match ps with
  | [] => new
  | (c1, c2) :: rest =>
      if bool_decide (MazeClause.init [] ∈ resolve c1 c2) then new
      else accumulated rest (new ∪ resolve c1 c2)
  end.

Fixpoint saturate (fuel : nat) (temp_kb new : gset clause) : option bool :=
  match fuel with
  | 0 => None
  | S fuel' =>
      let ps := MazeKnowledgeBase.combinations (elements temp_kb) in
      if refuted ps then Some true
      else
        let new' := new ∪ resolvents ps in
        if bool_decide (new' ⊆ temp_kb) then Some false
        else saturate fuel' (temp_kb ∪ new') new'
  end.

(** Every dictionary over the propositions [l]. *)
Fixpoint all_props (l : list proposition) : list (gmap proposition bool) :=
  match l with
  | [] => [∅]
  | prop :: rest =>
      let s := all_props rest in
      s ++ (insert prop true <$> s) ++ (insert prop false <$> s)
  end.

(** Every clause that is not valid over the universe [u] of
    propositions. *)
Definition all_clauses (u : gset proposition) : gset clause :=
  list_to_set ((λ m, MazeClause.mk m false) <$> all_props (elements u)).

(** A clause that is not valid and whose propositions are in [u]. *)
Definition over (u : gset proposition) (c : clause) : Prop :=
  valid c = false ∧ dom (props c) ⊆ u.

End Saturation.

(** ** The clauses and stores of the examples *)

Module Examples.

Definition P (x y : Z) : proposition := ("P"%string, (x, y)).

(** [P(1,1) v P(2,1)] *)
Definition c_p11_p21 : clause := MazeClause.init [(P 1 1, true); (P 2 1, true)].
(** [~P(1,1)] *)
Definition c_not_p11 : clause := MazeClause.init [(P 1 1, false)].
(** [P(1,1)] *)
Definition c_p11 : clause := MazeClause.init [(P 1 1, true)].
(** [P(2,1)] *)
Definition c_p21 : clause := MazeClause.init [(P 2 1, true)].
(** [P(1,1) v ~P(2,1)] *)
Definition c_p11_not_p21 : clause := MazeClause.init [(P 1 1, true); (P 2 1, false)].
(** [P(1,1) v P(1,2)] *)
Definition c_p11_p12 : clause := MazeClause.init [(P 1 1, true); (P 1 2, true)].

(** A store bound to the set object [0], and a heap where that object
    holds [P(1,1) v P(2,1)] and [~P(1,1)]. *)
Definition kb0 : MazeKnowledgeBase.t := MazeKnowledgeBase.mk 0.
Definition h0 : MazeKnowledgeBase.heap := {[ 0 := {[ c_p11_p21; c_not_p11 ]} ]}.


(** [P(1,1) v ~P(2,1)] alone, and [P(1,1) v P(2,1)] with
    [P(1,1) v P(1,2)]: stores for [simplify_self]. *)
Definition h_one : MazeKnowledgeBase.heap := {[ 0 := {[ c_p11_not_p21 ]} ]}.
Definition h_two : MazeKnowledgeBase.heap := {[ 0 := {[ c_p11_p21; c_p11_p12 ]} ]}.
Definition pit11 : gset (Z * Z) := {[ (1, 1)%Z ]}.

(** [~P(1,1) v P(1,2)] and [P(1,2)], of the docstring of
    [simplify_self]. *)
Definition c_not_p11_p12 : clause := MazeClause.init [(P 1 1, false); (P 1 2, true)].
Definition c_p12 : clause := MazeClause.init [(P 1 2, true)].

(** A store that holds [P(1,1) v P(2,1)] alone. *)
Definition h_query : MazeKnowledgeBase.heap := {[ 0 := {[ c_p11_p21 ]} ]}.

(** Every proposition false. *)
Definition all_false : Semantics.valuation := λ _, false.

End Examples.

(** * Properties *)

Import MazeClause.

Section clause_facts.

Implicit Types (m : gmap proposition bool) (l : list literal) (c : clause).

(** Once [self.props] holds [prop] with the other truth value of some
    later entry, the loop ends in the valid clause. *)
Lemma init_loop_clash m l prop b :
  m !! prop = Some b → (prop, negb b) ∈ l → init_loop m l = mk ∅ true.
Proof.
  revert m. induction l as [|[q tv] rest IH]; intros m Hm Hin.
  - by apply elem_of_nil in Hin.
  - simpl. apply elem_of_cons in Hin as [Heq|Hin].
    + injection Heq as <- <-. rewrite Hm.
      rewrite bool_decide_true; [done | by destruct b].
    + destruct (m !! q) as [b'|] eqn:Hq.
      * case_bool_decide; [done | by apply IH].
      * apply IH; [|done]. rewrite lookup_insert_ne; [done | congruence].
Qed.

Lemma init_loop_both m l prop :
  (prop, true) ∈ l → (prop, false) ∈ l → init_loop m l = mk ∅ true.
Proof.
  revert m. induction l as [|[q tv] rest IH]; intros m Ht Hf.
  - by apply elem_of_nil in Ht.
  - simpl. destruct (m !! q) as [b'|] eqn:Hq.
    + case_bool_decide as Hb; [done|].
      assert (b' = tv) as -> by (destruct (decide (b' = tv)); [done | by destruct Hb]).
      apply elem_of_cons in Ht as [Ht|Ht], Hf as [Hf|Hf]; simplify_eq.
      * by apply (init_loop_clash _ _ q true).
      * by apply (init_loop_clash _ _ q false).
      * by apply IH.
    + apply elem_of_cons in Ht as [Ht|Ht], Hf as [Hf|Hf]; simplify_eq.
      * apply (init_loop_clash _ _ q true); [by rewrite lookup_insert_eq | done].
      * apply (init_loop_clash _ _ q false); [by rewrite lookup_insert_eq | done].
      * by apply IH.
Qed.

(** Without a repeated key, the loop ends in the clause that stores
    every entry. *)
Lemma init_loop_fresh m l :
  NoDup l.*1 → (∀ prop, prop ∈ l.*1 → m !! prop = None) →
  init_loop m l = mk (list_to_map l ∪ m) false.
Proof.
  revert m. induction l as [|[q tv] rest IH]; intros m Hnd Hfresh.
  - simpl. by rewrite (left_id_L ∅ (∪)).
  - simpl in *. apply NoDup_cons in Hnd as [Hq Hnd].
    rewrite Hfresh; [|by left].
    rewrite IH; [|done|].
    + f_equal. rewrite <- insert_union_l. symmetry. apply insert_union_r.
      by apply not_elem_of_list_to_map_1.
    + intros p Hp. rewrite lookup_insert_ne; [|by intros ->].
      apply Hfresh. by right.
Qed.

(** [MazeClause(d.items())] for a dictionary [d]. *)
Lemma init_items m : init (map_to_list m) = mk m false.
Proof.
  unfold init. rewrite init_loop_fresh.
  - by rewrite list_to_map_to_list, (right_id_L ∅ (∪)).
  - apply NoDup_fst_map_to_list.
  - intros. apply lookup_empty.
Qed.

Lemma init_nil : init [] = mk ∅ false.
Proof. done. Qed.

(** The constructor builds well-formed clauses only. *)
Lemma init_loop_well_formed m l : Semantics.well_formed (init_loop m l).
Proof.
  revert m. induction l as [|[q tv] rest IH]; intros m; simpl.
  - by intros ?.
  - destruct (m !! q); [case_bool_decide|]; try apply IH. by intros _.
Qed.

End clause_facts.

(** C5: an input that holds some proposition with both truth values is
    built into a clause for which [is_valid] answers true and which
    stores no proposition. *)
Theorem init_complementary_valid (l : list literal) (prop : proposition) :
  (prop, true) ∈ l → (prop, false) ∈ l →
  is_valid (init l) = true ∧ props (init l) = ∅ ∧ len (init l) = 0.
Proof.
  intros Ht Hf. unfold init. by rewrite (init_loop_both _ _ prop).
Qed.

Lemma init_complementary_valid_witness :
  is_valid (init [(("P"%string, (1, 1)%Z), true); (("B"%string, (0, 2)%Z), false);
                  (("P"%string, (1, 1)%Z), false)]) = true
  ∧ props (init [(("P"%string, (1, 1)%Z), true); (("B"%string, (0, 2)%Z), false);
                 (("P"%string, (1, 1)%Z), false)]) = ∅
  ∧ len (init [(("P"%string, (1, 1)%Z), true); (("B"%string, (0, 2)%Z), false);
               (("P"%string, (1, 1)%Z), false)]) = 0.
Proof.
  apply (init_complementary_valid _ ("P"%string, (1, 1)%Z)).
  - apply elem_of_cons; left; reflexivity.
  - do 2 (apply elem_of_cons; right). apply elem_of_cons; left; reflexivity.
Defined.

Section resolve_facts.

Implicit Types (c : clause) (prop : proposition).

Lemma is_complementary_spec c1 c2 prop :
  is_complementary c1 c2 prop = true
  ↔ ∃ b, props c1 !! prop = Some b ∧ props c2 !! prop = Some (negb b).
Proof.
  unfold is_complementary. split.
  - destruct (props c1 !! prop) as [b1|], (props c2 !! prop) as [b2|]; try done.
    intros Hb. exists b1. by destruct b1, b2.
  - intros (b & -> & ->). by destruct b.
Qed.

Lemma is_complementary_sym c1 c2 prop :
  is_complementary c1 c2 prop = is_complementary c2 c1 prop.
Proof.
  unfold is_complementary.
  destruct (props c1 !! prop) as [[]|], (props c2 !! prop) as [[]|]; done.
Qed.

Lemma elem_of_complementary_props c1 c2 prop :
  prop ∈ complementary_props c1 c2 ↔ is_complementary c1 c2 prop = true.
Proof.
  unfold complementary_props, complementary_from.
  rewrite list_elem_of_filter, Is_true_true. split; [by intros []|].
  intros Hc. split; [done|].
  apply is_complementary_spec in Hc as (b & Hb & _).
  apply list_elem_of_fmap. exists (prop, b). split; [done|].
  by apply elem_of_map_to_list.
Qed.

Lemma NoDup_complementary_props c1 c2 : NoDup (complementary_props c1 c2).
Proof. apply NoDup_filter, NoDup_fst_map_to_list. Qed.

Lemma elem_of_complementary c1 c2 prop :
  prop ∈ Semantics.complementary c1 c2 ↔ is_complementary c1 c2 prop = true.
Proof.
  unfold Semantics.complementary. rewrite elem_of_filter, is_complementary_spec.
  split; [by intros []|]. intros (b & Hb & Hb'). split; [by eauto|].
  apply elem_of_dom. by eexists.
Qed.

(** The list that the loop collects enumerates the shared complementary
    propositions. *)
Lemma complementary_props_elements c1 c2 :
  complementary_props c1 c2 ≡ₚ elements (Semantics.complementary c1 c2).
Proof.
  apply NoDup_Permutation.
  - apply NoDup_complementary_props.
  - apply NoDup_elements.
  - intros prop.
    by rewrite elem_of_elements, elem_of_complementary, elem_of_complementary_props.
Qed.

Lemma complementary_props_sym c1 c2 :
  complementary_props c1 c2 ≡ₚ complementary_props c2 c1.
Proof.
  apply NoDup_Permutation; [apply NoDup_complementary_props..|].
  intros prop. by rewrite !elem_of_complementary_props, is_complementary_sym.
Qed.

Lemma complementary_props_singleton c1 c2 prop :
  complementary_props c1 c2 = [prop] ↔ Semantics.complementary c1 c2 = {[ prop ]}.
Proof.
  split.
  - intros Hl. apply set_eq. intros q.
    rewrite elem_of_complementary, <- elem_of_complementary_props, Hl.
    by rewrite list_elem_of_singleton, elem_of_singleton.
  - intros Hs. apply Permutation_singleton_r.
    by rewrite complementary_props_elements, Hs, elements_singleton.
Qed.

(** The constructor call of [resolve] never meets a repeated key, so the
    test on [new_clause.valid] always lets the resolvent through. *)
Lemma resolve_unfold c1 c2 :
  resolve c1 c2 =
    match complementary_props c1 c2 with
    | [prop] => {[ mk (delete prop (merge_props c1 c2)) false ]}
    | _ => ∅
    end.
Proof.
  unfold resolve. destruct (complementary_props c1 c2) as [|prop [|??]]; try done.
  by rewrite init_items.
Qed.

(** Away from the complementary proposition the two dictionaries agree
    on every shared key, so the merge order is immaterial. *)
Lemma merge_props_sym c1 c2 prop :
  complementary_props c1 c2 = [prop] →
  delete prop (merge_props c1 c2) = delete prop (merge_props c2 c1).
Proof.
  intros Hl. apply map_eq. intros q. unfold merge_props.
  destruct (decide (prop = q)) as [->|Hne]; [by rewrite !lookup_delete_eq|].
  rewrite !lookup_delete_ne by done.
  rewrite !lookup_union.
  destruct (props c1 !! q) as [b1|] eqn:H1, (props c2 !! q) as [b2|] eqn:H2; try done.
  destruct (decide (b1 = b2)) as [->|Hb]; [done|].
  assert (q ∈ complementary_props c1 c2) as Hq.
  { apply elem_of_complementary_props, is_complementary_spec.
    exists b1. split; [done|]. rewrite H2. f_equal. by destruct b1, b2. }
  rewrite Hl in Hq. apply list_elem_of_singleton in Hq. congruence.
Qed.

Lemma elem_of_resolve c1 c2 r :
  r ∈ resolve c1 c2
  ↔ ∃ prop, complementary_props c1 c2 = [prop]
            ∧ r = mk (delete prop (merge_props c1 c2)) false.
Proof.
  rewrite resolve_unfold.
  destruct (complementary_props c1 c2) as [|prop [|??]].
  - rewrite elem_of_empty. split; [done | by intros (? & ? & _)].
  - rewrite elem_of_singleton. split; [by eauto|]. by intros (? & [= <-] & ->).
  - rewrite elem_of_empty. split; [done | by intros (? & ? & _)].
Qed.

(** The two orders of the arguments give the same resolvents. *)
Lemma resolve_swap c1 c2 : resolve c1 c2 = resolve c2 c1.
Proof.
  rewrite !resolve_unfold.
  pose proof (complementary_props_sym c1 c2) as Hp.
  destruct (complementary_props c1 c2) as [|prop [|??]] eqn:Hl.
  - apply Permutation_nil_l in Hp. by rewrite <- Hp.
  - apply Permutation_singleton_l in Hp. rewrite <- Hp.
    by rewrite (merge_props_sym c1 c2).
  - apply Permutation_length in Hp.
    destruct (complementary_props c2 c1) as [|? [|??]]; done.
Qed.

(** A clause does not resolve with itself. *)
Lemma resolve_self c : resolve c c = ∅.
Proof.
  rewrite resolve_unfold.
  assert (complementary_props c c = []) as ->; [|done].
  apply elem_of_nil_inv. intros q Hp%elem_of_complementary_props.
  unfold is_complementary in Hp. by destruct (props c !! q) as [[]|].
Qed.

End resolve_facts.

(** C2: [resolve] returns the empty set unless exactly one proposition
    is complementary; with exactly one, it returns the one clause built
    from the union of the two dictionaries less that proposition, or the
    empty set if that clause is valid. *)
Theorem resolve_zero_or_one (c1 c2 : clause) :
  (size (Semantics.complementary c1 c2) ≠ 1 → resolve c1 c2 = ∅)
  ∧ (∀ prop, Semantics.complementary c1 c2 = {[ prop ]} →
       let remainder := init (map_to_list (delete prop (props c1 ∪ props c2))) in
       resolve c1 c2 = if is_valid remainder then ∅ else {[ remainder ]}).
Proof.
  split.
  - intros Hsize. rewrite resolve_unfold.
    destruct (complementary_props c1 c2) as [|prop [|??]] eqn:Hl; try done.
    apply complementary_props_singleton in Hl.
    rewrite Hl, size_singleton in Hsize. done.
  - intros prop Hs. apply complementary_props_singleton in Hs as Hl.
    rewrite resolve_unfold, Hl. simpl. rewrite init_items. simpl.
    by rewrite (merge_props_sym c1 c2).
Qed.

Lemma resolve_zero_or_one_witness :
  Semantics.complementary Examples.c_p11_p21 Examples.c_not_p11 = {[ Examples.P 1 1 ]}
  ∧ resolve Examples.c_p11_p21 Examples.c_not_p11 = {[ Examples.c_p21 ]}.
Proof.
  assert (Semantics.complementary Examples.c_p11_p21 Examples.c_not_p11
          = {[ Examples.P 1 1 ]}) as Hc by compute_done.
  split; [exact Hc|].
  rewrite (proj2 (resolve_zero_or_one _ _) _ Hc).
  compute_done.
Defined.

(** The remainder of C2 is never a tautology: the second outcome of the
    one-complementary case does not arise. *)
Lemma resolve_remainder_not_valid (c1 c2 : clause) (prop : proposition) :
  is_valid (init (map_to_list (delete prop (props c1 ∪ props c2)))) = false.
Proof. by rewrite init_items. Qed.

(** C10: [resolve] gives the same set of resolvents for both orders of
    its arguments. *)
Theorem resolve_comm (c1 c2 : clause) : resolve c1 c2 = resolve c2 c1.
Proof.
  rewrite !resolve_unfold.
  pose proof (complementary_props_sym c1 c2) as Hp.
  destruct (complementary_props c1 c2) as [|prop [|??]] eqn:Hl.
  - apply Permutation_nil_l in Hp. by rewrite <- Hp.
  - apply Permutation_singleton_l in Hp. rewrite <- Hp.
    by rewrite (merge_props_sym c1 c2).
  - apply Permutation_length in Hp.
    destruct (complementary_props c2 c1) as [|? [|??]]; done.
Qed.

Section eq_hash_facts.

Implicit Types (c : clause).

Lemma eq_true_iff c1 c2 :
  eq c1 c2 = true ↔ dom (props c1) = dom (props c2) ∧ valid c1 = valid c2.
Proof.
  unfold eq. by rewrite andb_true_iff, !bool_decide_eq_true.
Qed.

End eq_hash_facts.

(** C4, on the code: [P(1,1)] and [~P(1,1)] have the same keys and the
    same valid flag and compare equal, and [__hash__] hashes two
    different values for them: the items, which hold the truth values,
    and not the keys that [__eq__] compares. *)
Theorem eq_true_hash_differs :
  dom (props Examples.c_p11) = dom (props Examples.c_not_p11)
  ∧ valid Examples.c_p11 = valid Examples.c_not_p11
  ∧ eq Examples.c_p11 Examples.c_not_p11 = true
  ∧ hash Examples.c_p11 ≠ hash Examples.c_not_p11.
Proof.
  split_and!; compute_done.
Qed.

Import MazeKnowledgeBase Saturation.

Section heap_facts.

Implicit Types (h : heap) (r : ref) (s : gset clause).

Lemma combinations_elem {A} (l : list A) (x y : A) :
  (x, y) ∈ combinations l → x ∈ l ∧ y ∈ l.
Proof.
  induction l as [|a rest IH]; simpl; [by intros ?%elem_of_nil|].
  rewrite elem_of_app, list_elem_of_fmap. intros [(z & [= -> ->] & Hz)|Hin].
  - split; [by left | by right].
  - destruct (IH Hin). split; by right.
Qed.

Lemma combinations_complete {A} (l : list A) (x y : A) :
  x ∈ l → y ∈ l → x ≠ y → (x, y) ∈ combinations l ∨ (y, x) ∈ combinations l.
Proof.
  induction l as [|a rest IH]; simpl; [by intros ?%elem_of_nil|].
  intros Hx Hy Hne. rewrite !elem_of_app, !list_elem_of_fmap.
  apply elem_of_cons in Hx as [->|Hx], Hy as [->|Hy]; [done|..].
  - left. left. by exists y.
  - right. left. by exists x.
  - destruct (IH Hx Hy Hne); [left | right]; by right.
Qed.

Lemma refuted_true ps :
  refuted ps = true ↔ ∃ c1 c2, (c1, c2) ∈ ps ∧ MazeClause.init [] ∈ resolve c1 c2.
Proof.
  unfold refuted. rewrite existsb_exists. split.
  - intros ([c1 c2] & Hin & Hb). apply bool_decide_eq_true in Hb.
    exists c1, c2. split; [by apply list_elem_of_In | done].
  - intros (c1 & c2 & Hin & Hr). exists (c1, c2).
    split; [by apply list_elem_of_In | by apply bool_decide_eq_true].
Qed.

Lemma elem_of_resolvents ps c :
  c ∈ resolvents ps ↔ ∃ c1 c2, (c1, c2) ∈ ps ∧ c ∈ resolve c1 c2.
Proof.
  unfold resolvents. rewrite elem_of_union_list. split.
  - intros (X & HX & Hc). apply list_elem_of_fmap in HX as ([c1 c2] & -> & Hin).
    by exists c1, c2.
  - intros (c1 & c2 & Hin & Hc). exists (resolve c1 c2). split; [|done].
    apply list_elem_of_fmap. by exists (c1, c2).
Qed.

Lemma accumulated_not_refuted ps n :
  refuted ps = false → accumulated ps n = n ∪ resolvents ps.
Proof.
  revert n. induction ps as [|[c1 c2] rest IH]; intros n;
    cbn [refuted accumulated existsb fst snd].
  - intros _. unfold resolvents. rewrite fmap_nil, union_list_nil.
    by rewrite (right_id_L ∅ (∪)).
  - intros [Hr Hrest]%orb_false_iff. rewrite Hr, IH by done.
    unfold resolvents. rewrite fmap_cons, union_list_cons. cbn [fst snd].
    by rewrite (assoc_L (∪)).
Qed.

(** What the [for] loop finds does not depend on the order in which
    [combinations] is handed the working set: any enumeration [it] of
    the set gives the same answer and the same resolvents. *)
Lemma refuted_members (it : list clause) :
  refuted (combinations it) = true
  ↔ ∃ c1 c2, c1 ∈ it ∧ c2 ∈ it ∧ MazeClause.init [] ∈ resolve c1 c2.
Proof.
  rewrite refuted_true. split.
  - intros (c1 & c2 & [H1 H2]%combinations_elem & Hr). by exists c1, c2.
  - intros (c1 & c2 & H1 & H2 & Hr).
    destruct (decide (c1 = c2)) as [->|Hne]; [by rewrite resolve_self in Hr|].
    destruct (combinations_complete it c1 c2 H1 H2 Hne) as [Hc|Hc].
    + by exists c1, c2.
    + exists c2, c1. by rewrite resolve_swap.
Qed.

Lemma resolvents_members (it : list clause) c :
  c ∈ resolvents (combinations it)
  ↔ ∃ c1 c2, c1 ∈ it ∧ c2 ∈ it ∧ c ∈ resolve c1 c2.
Proof.
  rewrite elem_of_resolvents. split.
  - intros (c1 & c2 & [H1 H2]%combinations_elem & Hr). by exists c1, c2.
  - intros (c1 & c2 & H1 & H2 & Hr).
    destruct (decide (c1 = c2)) as [->|Hne]; [by rewrite resolve_self in Hr|].
    destruct (combinations_complete it c1 c2 H1 H2 Hne) as [Hc|Hc].
    + by exists c1, c2.
    + exists c2, c1. by rewrite resolve_swap.
Qed.

Lemma for_loop_order (it it' : list clause) :
  it ≡ₚ it' →
  refuted (combinations it) = refuted (combinations it')
  ∧ resolvents (combinations it) = resolvents (combinations it').
Proof.
  intros Hp. split.
  - apply Bool.eq_true_iff_eq. rewrite !refuted_members.
    by setoid_rewrite Hp.
  - apply set_eq. intros c. rewrite !resolvents_members.
    by setoid_rewrite Hp.
Qed.

(** The [for] loop of [ask] on a heap where [new] holds [n]: it answers
    [refuted] and writes to [new] only. *)
Lemma for_pairs_run ps new h n :
  h !! new = Some n →
  for_pairs ps new h = Some (refuted ps, <[new := accumulated ps n]> h).
Proof.
  revert h n. induction ps as [|[c1 c2] rest IH]; intros h n Hn;
    cbn [for_pairs refuted accumulated existsb fst snd].
  - unfold ret. by rewrite (insert_id h new n Hn).
  - destruct (bool_decide (MazeClause.init [] ∈ resolve c1 c2)); cbn [orb].
    + unfold ret. by rewrite (insert_id h new n Hn).
    + unfold bind, set_update. rewrite Hn.
      rewrite (IH _ (n ∪ resolve c1 c2)) by (by rewrite lookup_insert_eq).
      by rewrite insert_insert_eq.
Qed.

(** One round of the [while] loop. *)
Lemma ask_loop_step fuel temp_kb new h k n :
  temp_kb ≠ new → h !! temp_kb = Some k → h !! new = Some n →
  ask_loop (S fuel) temp_kb new h =
    let ps := combinations (elements k) in
    let n' := accumulated ps n in
    if refuted ps then Some (true, <[new := n']> h)
    else if bool_decide (n' ⊆ k) then Some (false, <[new := n']> h)
    else ask_loop fuel temp_kb new (<[temp_kb := k ∪ n']> (<[new := n']> h)).
Proof.
  intros Hne Hk Hn. cbn [ask_loop]. unfold bind at 1. unfold get at 1. rewrite Hk.
  unfold bind at 1. rewrite (for_pairs_run _ _ _ n Hn). cbn zeta.
  destruct (refuted (combinations (elements k))); [done|].
  unfold bind at 1. unfold get at 1. rewrite lookup_insert_eq.
  unfold bind at 1. unfold get at 1. rewrite lookup_insert_ne, Hk by done.
  destruct (bool_decide _); [done|].
  unfold bind at 1. unfold set_update at 1. by rewrite lookup_insert_ne, Hk.
Qed.

(** [ask_loop] computes [saturate] on the contents of its two set
    objects and changes no other object. *)
Lemma ask_loop_run fuel temp_kb new h k n :
  temp_kb ≠ new → h !! temp_kb = Some k → h !! new = Some n →
  match saturate fuel k n with
  | Some b => ∃ k' n', ask_loop fuel temp_kb new h
                       = Some (b, <[temp_kb := k']> (<[new := n']> h))
  | None => ask_loop fuel temp_kb new h = None
  end.
Proof.
  intros Hne. revert h k n. induction fuel as [|fuel IH]; intros h k n Hk Hn; [done|].
  rewrite (ask_loop_step fuel temp_kb new h k n) by done.
  cbn [saturate]. cbn zeta.
  destruct (refuted (combinations (elements k))) eqn:Href.
  - exists k, (accumulated (combinations (elements k)) n). f_equal. f_equal.
    symmetry. apply insert_id. by rewrite lookup_insert_ne.
  - rewrite accumulated_not_refuted by done.
    set (n' := n ∪ resolvents (combinations (elements k))).
    destruct (bool_decide (n' ⊆ k)).
    + exists k, n'. f_equal. f_equal.
      symmetry. apply insert_id. by rewrite lookup_insert_ne.
    + specialize (IH (<[temp_kb := k ∪ n']> (<[new := n']> h)) (k ∪ n') n').
      rewrite lookup_insert_eq in IH.
      rewrite lookup_insert_ne, lookup_insert_eq in IH by done.
      specialize (IH eq_refl eq_refl).
      destruct (saturate fuel (k ∪ n') n') as [b|]; [|done].
      destruct IH as (k'' & n'' & ->). exists k'', n''. f_equal. f_equal.
      rewrite (insert_insert_ne _ new temp_kb) by done.
      by rewrite !insert_insert_eq.
Qed.

Lemma negated_query_eq query :
  negated_query query = MazeClause.mk (negb <$> props query) false.
Proof. unfold negated_query. apply init_items. Qed.

(** [ask] up to its loop: the deep copy with the negated query added
    and the empty accumulator are two new set objects. *)
Lemma ask_unfold fuel self query h stored :
  held self h = Some stored →
  ask fuel self query h =
    let t := fresh (dom h) in
    let h2 := <[t := stored ∪ {[ negated_query query ]}]> h in
    let nw := fresh (dom h2) in
    ask_loop fuel t nw (<[nw := ∅]> h2).
Proof.
  unfold held. intros Hs. unfold ask.
  unfold bind at 1. unfold get at 1. rewrite Hs.
  unfold bind at 1. unfold new_set at 1. cbn zeta.
  unfold bind at 1. unfold set_add, set_update. rewrite lookup_insert_eq.
  rewrite insert_insert_eq.
  unfold bind at 1. unfold new_set at 1. done.
Qed.

(** [ask] on a heap where the store holds [stored]: the answer is that
    of [saturate] on [stored] with the negated query added, and every
    set object of the heap before the call has its content unchanged. *)
Lemma ask_run fuel self query h stored :
  held self h = Some stored →
  match saturate fuel (stored ∪ {[ negated_query query ]}) ∅ with
  | Some b => ∃ h', ask fuel self query h = Some (b, h')
                    ∧ ∀ r, r ∈ dom h → h' !! r = h !! r
  | None => ask fuel self query h = None
  end.
Proof.
  intros Hs. rewrite (ask_unfold fuel self query h stored Hs). cbn zeta.
  set (t := fresh (dom h)).
  set (h2 := <[t := stored ∪ {[negated_query query]}]> h).
  set (nw := fresh (dom h2)).
  assert (t ∉ dom h) as Ht by apply is_fresh.
  assert (nw ∉ dom h2) as Hnw by apply is_fresh.
  assert (t ≠ nw) as Hne.
  { intros Heq. apply Hnw. unfold h2. rewrite dom_insert_L, <- Heq. set_solver. }
  pose proof (ask_loop_run fuel t nw (<[nw := ∅]> h2)
                (stored ∪ {[negated_query query]}) ∅ Hne) as Hrun.
  rewrite lookup_insert_ne, lookup_insert_eq in Hrun by done.
  unfold h2 at 1 in Hrun. rewrite lookup_insert_eq in Hrun.
  specialize (Hrun eq_refl eq_refl).
  destruct (saturate fuel (stored ∪ {[negated_query query]}) ∅) as [b|]; [|done].
  destruct Hrun as (k' & n' & ->). eexists. split; [done|].
  intros r Hr.
  assert (r ≠ t) by (intros Heq; by rewrite Heq in Hr).
  assert (r ≠ nw).
  { intros Heq. apply Hnw. unfold h2. rewrite dom_insert_L, <- Heq. set_solver. }
  unfold h2. by rewrite !lookup_insert_ne.
Qed.

End heap_facts.

Section saturate_facts.

Implicit Types (k n : gset clause).

(** More rounds do not change an answer. *)
Lemma saturate_mono fuel fuel' k n b :
  saturate fuel k n = Some b → fuel ≤ fuel' → saturate fuel' k n = Some b.
Proof.
  revert fuel' k n. induction fuel as [|fuel IH]; intros fuel' k n Hs Hle; [done|].
  destruct fuel' as [|fuel']; [lia|]. simpl in *.
  destruct (refuted _); [done|]. case_bool_decide; [done|].
  apply IH; [done | lia].
Qed.

Lemma size_list_to_set_le (l : list clause) :
  size (list_to_set (C := gset clause) l) ≤ length l.
Proof.
  induction l as [|x l IH].
  - by rewrite list_to_set_nil, size_empty.
  - rewrite list_to_set_cons, length_cons, size_union_alt, size_singleton.
    assert (size (list_to_set l ∖ {[x]} : gset clause) ≤ size (list_to_set (C := gset clause) l))
      as Hle by (apply subseteq_size; set_solver).
    lia.
Qed.

Lemma length_all_props (l : list proposition) : length (all_props l) = 3 ^ length l.
Proof.
  induction l as [|prop rest IH]; [done|].
  cbn [all_props length]. rewrite !length_app, !length_fmap, IH.
  rewrite Nat.pow_succ_r'. lia.
Qed.

Lemma elem_of_all_props (l : list proposition) (m : gmap proposition bool) :
  (∀ prop, prop ∈ dom m → prop ∈ l) → m ∈ all_props l.
Proof.
  revert m. induction l as [|prop rest IH]; intros m Hdom.
  - assert (m = ∅) as ->; [|by apply list_elem_of_singleton].
    apply map_empty. intros q. apply not_elem_of_dom. intros Hq.
    by apply Hdom, elem_of_nil in Hq.
  - cbn [all_props]. rewrite !elem_of_app, !list_elem_of_fmap.
    assert (delete prop m ∈ all_props rest) as Hdel.
    { apply IH. intros q. rewrite dom_delete_L, elem_of_difference, elem_of_singleton.
      intros [Hq Hne]. apply Hdom, elem_of_cons in Hq as [->|Hq]; done. }
    destruct (m !! prop) as [[]|] eqn:Hm.
    + right. left. exists (delete prop m). split; [|done].
      by rewrite insert_delete_eq, insert_id.
    + right. right. exists (delete prop m). split; [|done].
      by rewrite insert_delete_eq, insert_id.
    + left. by rewrite delete_id in Hdel.
Qed.

Lemma size_all_clauses u : size (all_clauses u) ≤ 3 ^ size u.
Proof.
  unfold all_clauses. etrans; [apply size_list_to_set_le|].
  by rewrite length_fmap, length_all_props.
Qed.

Lemma over_all_clauses u c : over u c → c ∈ all_clauses u.
Proof.
  destruct c as [m vl]. intros [Hv Hd]. simpl in *. subst vl.
  unfold all_clauses. apply elem_of_list_to_set, list_elem_of_fmap.
  exists m. split; [done|]. apply elem_of_all_props.
  intros prop Hp. apply elem_of_elements. by apply Hd.
Qed.

(** A resolvent is not valid and holds propositions of its parents
    only. *)
Lemma resolve_over u c1 c2 r :
  dom (props c1) ⊆ u → dom (props c2) ⊆ u → r ∈ resolve c1 c2 → over u r.
Proof.
  intros H1 H2 (prop & _ & ->)%elem_of_resolve. split; [done|]. simpl.
  unfold merge_props. rewrite dom_delete_L, dom_union_L. set_solver.
Qed.

Lemma resolvents_over u it c :
  (∀ c', c' ∈ it → dom (props c') ⊆ u) →
  c ∈ resolvents (combinations it) → over u c.
Proof.
  intros Hit (c1 & c2 & [H1 H2]%combinations_elem & Hr)%elem_of_resolvents.
  apply (resolve_over u c1 c2); [by apply Hit | by apply Hit | done].
Qed.

(** The working set stays inside a finite set of clauses and grows in
    every round that does not return: the rounds run out before the
    room does. *)
Lemma saturate_terminates u bound fuel k n :
  k ⊆ bound → all_clauses u ⊆ bound →
  (∀ c, c ∈ k → dom (props c) ⊆ u) → (∀ c, c ∈ n → over u c) →
  size bound - size k < fuel →
  is_Some (saturate fuel k n).
Proof.
  intros Hk Hall. revert k n Hk.
  induction fuel as [|fuel IH]; intros k n Hk Hdom Hn Hsize; [lia|].
  simpl. destruct (refuted _); [by eexists|].
  case_bool_decide as Hsub; [by eexists|].
  set (n' := n ∪ resolvents (combinations (elements k))) in *.
  assert (∀ c, c ∈ n' → over u c) as Hn'.
  { intros c [Hc|Hc]%elem_of_union; [by apply Hn|].
    eapply resolvents_over; [|done]. intros c' Hc'%elem_of_elements. by apply Hdom. }
  assert (n' ⊆ bound) as Hn'b.
  { intros c Hc. by apply Hall, over_all_clauses, Hn'. }
  apply IH.
  - set_solver.
  - intros c [Hc|Hc]%elem_of_union; [by apply Hdom | by apply Hn'].
  - done.
  - assert (k ⊂ k ∪ n') as Hlt by set_solver.
    apply subset_size in Hlt.
    assert (size (k ∪ n') ≤ size bound) by (apply subseteq_size; set_solver).
    lia.
Qed.

End saturate_facts.

(** C3: for a store and a query over a finite universe [u] of
    propositions, [ask] returns: the loop ends within [3 ^ size u + 1]
    rounds, a bound on the number of clauses that the working set can
    gain. *)
Theorem ask_terminates (u : gset proposition) (self : MazeKnowledgeBase.t)
    (query : clause) (h : heap) (stored : gset clause) (fuel : nat) :
  held self h = Some stored →
  (∀ c, c ∈ stored → dom (props c) ⊆ u) → dom (props query) ⊆ u →
  3 ^ size u < fuel →
  ∃ b h', ask fuel self query h = Some (b, h').
Proof.
  intros Hheld Hstored Hquery Hfuel.
  pose proof (ask_run fuel self query h stored Hheld) as Hrun.
  set (k := stored ∪ {[negated_query query]}) in *.
  assert (over u (negated_query query)) as Hnq.
  { rewrite negated_query_eq. split; [done|]. simpl. by rewrite dom_fmap_L. }
  destruct (saturate_terminates u (k ∪ all_clauses u) fuel k ∅) as [b Hb].
  - set_solver.
  - set_solver.
  - intros c [Hc|Hc%elem_of_singleton]%elem_of_union; [by apply Hstored|].
    subst c. apply Hnq.
  - set_solver.
  - rewrite size_union_alt.
    pose proof (size_all_clauses u).
    assert (size (all_clauses u ∖ k) ≤ size (all_clauses u))
      as Hle by (apply subseteq_size; set_solver).
    lia.
  - rewrite Hb in Hrun. destruct Hrun as (h' & Hask & _). by exists b, h'.
Qed.

Lemma ask_terminates_witness :
  ∃ b h', ask 10 Examples.kb0 Examples.c_p21 Examples.h0 = Some (b, h').
Proof.
  apply (ask_terminates {[ Examples.P 1 1; Examples.P 2 1 ]} Examples.kb0
           Examples.c_p21 Examples.h0 {[ Examples.c_p11_p21; Examples.c_not_p11 ]}).
  - compute_done.
  - intros c Hc. apply elem_of_union in Hc as [Hc|Hc];
      apply elem_of_singleton in Hc; subst c; compute_done.
  - compute_done.
  - compute_done.
Defined.

(** C8: on a store that holds exactly [P(1,1) v P(2,1)] and [~P(1,1)],
    [ask(P(2,1))] returns true (two rounds of the loop are enough). *)
Theorem ask_entailment_example (fuel : nat) (self : MazeKnowledgeBase.t) (h : heap) :
  held self h = Some {[ Examples.c_p11_p21; Examples.c_not_p11 ]} →
  2 ≤ fuel →
  ∃ h', ask fuel self Examples.c_p21 h = Some (true, h').
Proof.
  intros Hheld Hfuel.
  pose proof (ask_run fuel self Examples.c_p21 h _ Hheld) as Hrun.
  rewrite (saturate_mono 2 fuel _ _ true) in Hrun; [|compute_done|done].
  destruct Hrun as (h' & Hask & _). by exists h'.
Qed.

Lemma ask_entailment_example_witness :
  ∃ h', ask 2 Examples.kb0 Examples.c_p21 Examples.h0 = Some (true, h').
Proof.
  apply (ask_entailment_example 2 Examples.kb0 Examples.h0).
  - compute_done.
  - lia.
Defined.

(** C9: when [ask] returns, the store is bound to the set object it was
    bound to before, and that set (like every set object that existed
    before the call) holds exactly the clauses it held before. *)
Theorem ask_leaves_store (fuel : nat) (self : MazeKnowledgeBase.t) (query : clause)
    (h h' : heap) (b : bool) :
  ask fuel self query h = Some (b, h') →
  held self h' = held self h ∧ ∀ r, r ∈ dom h → h' !! r = h !! r.
Proof.
  intros Hask.
  destruct (held self h) as [stored|] eqn:Hheld.
  - pose proof (ask_run fuel self query h stored Hheld) as Hrun.
    destruct (saturate fuel _ ∅) as [b'|].
    + destruct Hrun as (h'' & Hask' & Hframe).
      rewrite Hask in Hask'. injection Hask' as <- <-.
      split; [|done]. unfold held in *. rewrite Hframe, Hheld; [done|].
      apply elem_of_dom. by eexists.
    + by rewrite Hask in Hrun.
  - unfold held in Hheld. unfold ask, bind, get in Hask. by rewrite Hheld in Hask.
Qed.

Lemma ask_leaves_store_witness :
  let h' := (default (true, ∅) (ask 2 Examples.kb0 Examples.c_p21 Examples.h0)).2 in
  held Examples.kb0 h' = held Examples.kb0 Examples.h0
  ∧ ∀ r, r ∈ dom Examples.h0 → h' !! r = Examples.h0 !! r.
Proof.
  apply (ask_leaves_store 2 Examples.kb0 Examples.c_p21 Examples.h0 _ true).
  compute_done.
Defined.

Section simplify_facts.

Implicit Types (clauses res : gset clause) (loc : location) (h : heap).

(** With the one location [loc] known, as a pit, [simplify_from_known_locs]
    is one pass of [get_simplified_clauses]. *)
Lemma simplify_one_pit clauses loc res :
  simplify_from_known_locs clauses {[ loc ]} ∅ res
  ↔ get_simplified_clauses clauses loc true res.
Proof.
  unfold simplify_from_known_locs.
  rewrite (right_id_L ∅ (∪)), elements_singleton. split.
  - intros (locs & Hp%Permutation_singleton_r & Hrun). subst locs.
    inversion Hrun as [|? ? ? ? ? Hpass Hrest]; subst.
    inversion Hrest; subst.
    by rewrite bool_decide_eq_true_2 in Hpass by set_solver.
  - intros Hpass. exists [loc]. split; [done|].
    eapply simplify_locs_cons; [|apply simplify_locs_nil].
    by rewrite bool_decide_eq_true_2 by set_solver.
Qed.

(** What [self.clauses] holds after [simplify_self]. *)
Lemma simplify_self_held self known_pits known_safe h self' h' stored :
  held self h = Some stored →
  simplify_self self known_pits known_safe h self' h' →
  ∃ res, simplify_from_known_locs stored known_pits known_safe res
         ∧ held self' h' = Some res.
Proof.
  unfold held. intros Hs (stored' & res & Hs' & Hsim & Hcase).
  rewrite Hs in Hs'. injection Hs' as <-.
  exists res. split; [done|]. case_decide as He.
  - destruct Hcase as [-> ->].
    destruct Hsim as (locs & Hp & Hrun).
    rewrite He, elements_empty in Hp. apply Permutation_nil_r in Hp. subst locs.
    inversion Hrun; subst. done.
  - unfold new_set in Hcase. injection Hcase as <- <-. apply lookup_insert_eq.
Qed.

(** The enumerations of a set of one or two clauses. *)
Lemma enumeration_one (c : clause) it : it ≡ₚ elements ({[ c ]} : gset clause) → it = [c].
Proof. rewrite elements_singleton. apply Permutation_singleton_r. Qed.

Lemma enumeration_two (c1 c2 : clause) it :
  c1 ≠ c2 → it ≡ₚ elements ({[ c1; c2 ]} : gset clause) → it = [c1; c2] ∨ it = [c2; c1].
Proof.
  intros Hne Hp. apply Permutation_length_2_inv. rewrite Hp.
  apply NoDup_Permutation.
  - apply NoDup_cons. split; [by intros ?%list_elem_of_singleton|].
    apply NoDup_singleton.
  - apply NoDup_elements.
  - intros c. rewrite elem_of_elements. set_solver.
Qed.

(** The executable instances are runs of the relations. *)
Lemma simplify_locs_run known_pits locs clauses :
  simplify_locs known_pits locs clauses
    (foldl (λ cs loc, get_simplified_clauses_from (elements cs) cs loc
                        (bool_decide (loc ∈ known_pits))) clauses locs).
Proof.
  revert clauses. induction locs as [|loc locs IH]; intros clauses; cbn [foldl].
  - apply simplify_locs_nil.
  - eapply simplify_locs_cons; [|apply IH]. by exists (elements clauses).
Qed.

Lemma simplify_self_run_sound self known_pits known_safe h self' h' :
  simplify_self_run self known_pits known_safe h = Some (self', h') →
  simplify_self self known_pits known_safe h self' h'.
Proof.
  unfold simplify_self_run, simplify_self, bind, get.
  destruct (h !! clauses self) as [stored|] eqn:Hs; [|done].
  intros Hrun.
  exists stored, (simplify_from_known_locs_run stored known_pits known_safe).
  split; [done|]. split.
  - exists (elements (known_pits ∪ known_safe)). split; [done|].
    apply simplify_locs_run.
  - case_decide.
    + unfold ret in Hrun. by injection Hrun as <- <-.
    + unfold new_set, ret in *. by injection Hrun as <- <-.
Qed.

End simplify_facts.

(** C6, evaluated on the code: on the store that holds exactly
    [P(1,1) v ~P(2,1)], [simplify_self] with the known pit [(1,1)]
    removes the clause and leaves the store empty. The empty store is
    not equivalent to the original store conjoined with [P(1,1)]: the
    valuation that makes every proposition false satisfies the first and
    not the second. *)
Theorem simplify_self_example (self' : MazeKnowledgeBase.t) (h' : heap) :
  simplify_self Examples.kb0 Examples.pit11 ∅ Examples.h_one self' h' →
  held self' h' = Some ∅
  ∧ ¬ Semantics.equivalent ∅ ({[ Examples.c_p11_not_p21 ]} ∪ {[ Examples.c_p11 ]}).
Proof.
  intros Hrun. split.
  - assert (held Examples.kb0 Examples.h_one = Some {[ Examples.c_p11_not_p21 ]})
      as Hheld by apply lookup_singleton_eq.
    destruct (simplify_self_held _ _ _ _ _ _ _ Hheld Hrun) as (res & Hsim & ->).
    f_equal.
    apply simplify_one_pit in Hsim as (it & ->%enumeration_one & ->).
    compute_done.
  - intros Heq.
    assert (Semantics.sat_store Examples.all_false ∅) as Hs
      by (by intros c ?%elem_of_empty).
    apply Heq in Hs.
    assert (¬ Semantics.sat_clause Examples.all_false Examples.c_p11) as Hn
      by compute_done.
    apply Hn, Hs. set_solver.
Qed.

Lemma simplify_self_example_witness :
  let run := default (Examples.kb0, ∅)
               (simplify_self_run Examples.kb0 Examples.pit11 ∅ Examples.h_one) in
  held run.1 run.2 = Some ∅
  ∧ ¬ Semantics.equivalent ∅ ({[ Examples.c_p11_not_p21 ]} ∪ {[ Examples.c_p11 ]}).
Proof.
  apply simplify_self_example.
  apply simplify_self_run_sound. compute_done.
Defined.

(** The example in the docstring of [simplify_self]: the store
    [(P(1,1) v ~P(2,1)) ^ (~P(1,1) v P(1,2))] with the known pit [(1,1)]
    is said to condense to [P(1,1) ^ P(1,2)]. One pass of the code
    leaves [~P(1,1) v P(1,2)], with [P(1,2)] when that clause is visited
    first, and never holds [P(1,1)]. *)
Lemma simplify_docstring_example (res : gset clause) :
  simplify_from_known_locs {[ Examples.c_p11_not_p21; Examples.c_not_p11_p12 ]}
    Examples.pit11 ∅ res →
  (res = {[ Examples.c_not_p11_p12 ]}
   ∨ res = {[ Examples.c_not_p11_p12; Examples.c_p12 ]})
  ∧ Examples.c_p11 ∉ res.
Proof.
  intros (it & Hit & ->)%simplify_one_pit.
  apply enumeration_two in Hit as [->| ->]; [| |compute_done].
  - split; [left|]; compute_done.
  - split; [right|]; compute_done.
Qed.

(** C7, evaluated on the code: on the store that holds
    [P(1,1) v P(2,1)] and [P(1,1) v P(1,2)], a first [simplify_self] with
    the known pit [(1,1)] removes one of the two clauses, whichever the
    loop visits first, and a second call with the same arguments removes
    the other: the second call changes the store. *)
Theorem simplify_self_twice_example (self1 self2 : MazeKnowledgeBase.t) (h1 h2 : heap) :
  simplify_self Examples.kb0 Examples.pit11 ∅ Examples.h_two self1 h1 →
  simplify_self self1 Examples.pit11 ∅ h1 self2 h2 →
  (held self1 h1 = Some {[ Examples.c_p11_p12 ]}
   ∨ held self1 h1 = Some {[ Examples.c_p11_p21 ]})
  ∧ held self2 h2 = Some ∅
  ∧ held self2 h2 ≠ held self1 h1.
Proof.
  intros Hrun1 Hrun2.
  assert (held Examples.kb0 Examples.h_two
          = Some {[ Examples.c_p11_p21; Examples.c_p11_p12 ]})
    as Hheld by apply lookup_singleton_eq.
  destruct (simplify_self_held _ _ _ _ _ _ _ Hheld Hrun1) as (res1 & Hsim1 & Hheld1).
  destruct (simplify_self_held _ _ _ _ _ _ _ Hheld1 Hrun2) as (res2 & Hsim2 & Hheld2).
  rewrite Hheld1, Hheld2.
  apply simplify_one_pit in Hsim1 as (it1 & Hit1 & ->).
  apply simplify_one_pit in Hsim2 as (it2 & Hit2 & ->).
  apply enumeration_two in Hit1 as [->| ->]; [| |compute_done].
  - assert (get_simplified_clauses_from
              [Examples.c_p11_p21; Examples.c_p11_p12]
              {[ Examples.c_p11_p21; Examples.c_p11_p12 ]} (1, 1)%Z true
            = {[ Examples.c_p11_p12 ]}) as Hres by compute_done.
    rewrite Hres in *. apply enumeration_one in Hit2 as ->.
    split_and!; [by left | f_equal; compute_done | compute_done].
  - assert (get_simplified_clauses_from
              [Examples.c_p11_p12; Examples.c_p11_p21]
              {[ Examples.c_p11_p21; Examples.c_p11_p12 ]} (1, 1)%Z true
            = {[ Examples.c_p11_p21 ]}) as Hres by compute_done.
    rewrite Hres in *. apply enumeration_one in Hit2 as ->.
    split_and!; [by right | f_equal; compute_done | compute_done].
Qed.

Lemma simplify_self_twice_example_witness :
  let run1 := default (Examples.kb0, ∅)
                (simplify_self_run Examples.kb0 Examples.pit11 ∅ Examples.h_two) in
  let run2 := default (Examples.kb0, ∅)
                (simplify_self_run run1.1 Examples.pit11 ∅ run1.2) in
  (held run1.1 run1.2 = Some {[ Examples.c_p11_p12 ]}
   ∨ held run1.1 run1.2 = Some {[ Examples.c_p11_p21 ]})
  ∧ held run2.1 run2.2 = Some ∅
  ∧ held run2.1 run2.2 ≠ held run1.1 run1.2.
Proof.
  apply simplify_self_twice_example.
  - apply simplify_self_run_sound. compute_done.
  - apply simplify_self_run_sound. compute_done.
Defined.

Section refutation_facts.

Import Semantics.

Implicit Types (k n : gset clause) (v : valuation) (c : clause).

Lemma sat_clause_empty v : ¬ sat_clause v (MazeClause.init []).
Proof. intros [?|(? & ? & Hl & _)]; [done|]. by rewrite init_nil in Hl. Qed.

(** The resolution rule is sound. *)
Lemma resolve_sound v c1 c2 r :
  well_formed c1 → well_formed c2 → lax_sat v c1 → lax_sat v c2 →
  r ∈ resolve c1 c2 → sat_clause v r.
Proof.
  intros Hw1 Hw2 Hs1 Hs2 (x & Hx & ->)%elem_of_resolve.
  assert (x ∈ complementary_props c1 c2) as Hin by (rewrite Hx; by left).
  apply elem_of_complementary_props, is_complementary_spec in Hin as (bx & Hx1 & Hx2).
  assert (∀ q b1 b2, props c1 !! q = Some b1 → props c2 !! q = Some b2 →
            q ≠ x → b1 = b2) as Hagree.
  { intros q b1 b2 Hq1 Hq2 Hne. destruct (decide (b1 = b2)) as [|Hb]; [done|].
    destruct Hne. apply list_elem_of_singleton. rewrite <- Hx.
    apply elem_of_complementary_props, is_complementary_spec.
    exists b1. split; [done|]. rewrite Hq2. f_equal. by destruct b1, b2. }
  assert (sat_props v (props c1)) as (p1 & b1 & Hp1 & Hv1).
  { destruct Hs1 as [He|[Hv|Hs]]; [by rewrite He in Hx1| |done].
    by rewrite (Hw1 Hv) in Hx1. }
  assert (sat_props v (props c2)) as (p2 & b2 & Hp2 & Hv2).
  { destruct Hs2 as [He|[Hv|Hs]]; [by rewrite He in Hx2| |done].
    by rewrite (Hw2 Hv) in Hx2. }
  right. cbn [props]. unfold merge_props.
  destruct (decide (p2 = x)) as [->|Hne2].
  - destruct (decide (p1 = x)) as [->|Hne1].
    { rewrite Hx1 in Hp1. rewrite Hx2 in Hp2.
      injection Hp1 as <-. injection Hp2 as <-.
      rewrite Hv1 in Hv2. by destruct bx. }
    exists p1, b1. split; [|done].
    rewrite lookup_delete_ne, lookup_union, Hp1 by done.
    destruct (props c2 !! p1) as [b'|] eqn:Hp; [|done].
    by rewrite (Hagree p1 b1 b' Hp1 Hp Hne1).
  - exists p2, b2. split; [|done].
    rewrite lookup_delete_ne, lookup_union, Hp2 by done.
    by destruct (props c1 !! p2).
Qed.

Lemma resolve_well_formed c1 c2 r : r ∈ resolve c1 c2 → well_formed r.
Proof. by intros (x & _ & ->)%elem_of_resolve. Qed.

(** While some valuation satisfies the working set and the accumulator,
    the loop does not derive the empty clause. *)
Lemma saturate_sound fuel k n v :
  (∀ c, c ∈ k ∪ n → well_formed c) → (∀ c, c ∈ k ∪ n → lax_sat v c) →
  saturate fuel k n ≠ Some true.
Proof.
  revert k n. induction fuel as [|fuel IH]; intros k n Hwf Hsat; [done|].
  cbn [saturate]. cbn zeta.
  assert (∀ r, r ∈ resolvents (combinations (elements k)) →
            well_formed r ∧ sat_clause v r) as Hres.
  { intros r (c1 & c2 & [H1%elem_of_elements H2%elem_of_elements]%combinations_elem
                & Hr)%elem_of_resolvents.
    split; [by eapply resolve_well_formed|].
    apply (resolve_sound v c1 c2);
      [apply Hwf|apply Hwf|apply Hsat|apply Hsat|done]; set_solver. }
  destruct (refuted _) eqn:Href.
  - apply refuted_true in Href as (c1 & c2 & Hin & Hr).
    destruct (sat_clause_empty v). apply Hres, elem_of_resolvents. by exists c1, c2.
  - case_bool_decide; [done|]. apply IH.
    + intros c Hc. assert (c ∈ k ∪ n ∨ c ∈ resolvents (combinations (elements k)))
        as [?|?] by set_solver; [by apply Hwf | by apply Hres].
    + intros c Hc. assert (c ∈ k ∪ n ∨ c ∈ resolvents (combinations (elements k)))
        as [?|?] by set_solver; [by apply Hsat | right; by apply Hres].
Qed.

(** A valuation that falsifies the query satisfies its negation, unless
    the query has no literal. *)
Lemma negated_query_lax_sat v query :
  ¬ sat_clause v query → lax_sat v (negated_query query).
Proof.
  intros Hq. rewrite negated_query_eq. unfold lax_sat, sat_clause. cbn [props].
  destruct (map_choose_or_empty (props query)) as [(p & b & Hp)|He].
  - right. right. exists p, (negb b). split; [by rewrite lookup_fmap, Hp|].
    destruct (decide (v p = b)) as [Hv|Hv]; [|by destruct (v p), b].
    destruct Hq. right. by exists p, b.
  - left. by rewrite He, fmap_empty.
Qed.

Lemma size_one_lookup (m : gmap proposition bool) p q b b' :
  size m = 1 → m !! p = Some b → m !! q = Some b' → p = q.
Proof.
  intros Hsize Hp Hq. rewrite <- size_dom in Hsize.
  apply (size_singleton_inv (dom m)); [done|apply elem_of_dom; by eexists..].
Qed.

End refutation_facts.

(** C1, as stated, fails: the store that holds [P(1,1) v P(2,1)] entails
    the query [P(1,1) v P(2,1)], and [ask] returns false on it, in the
    first round and whatever the number of rounds allowed. The negated
    query is [~P(1,1) v ~P(2,1)], which shares two complementary
    propositions with the stored clause, so nothing resolves. *)
Lemma ask_entails_counterexample :
  Semantics.entails {[ Examples.c_p11_p21 ]} Examples.c_p11_p21
  ∧ (∃ h', ask 1 Examples.kb0 Examples.c_p11_p21 Examples.h_query = Some (false, h'))
  ∧ (∀ fuel b h',
       ask fuel Examples.kb0 Examples.c_p11_p21 Examples.h_query = Some (b, h') →
       b = false).
Proof.
  assert (held Examples.kb0 Examples.h_query = Some {[ Examples.c_p11_p21 ]})
    as Hheld by apply lookup_singleton_eq.
  assert (saturate 1 ({[ Examples.c_p11_p21 ]} ∪ {[ negated_query Examples.c_p11_p21 ]}) ∅
          = Some false) as Hsat by compute_done.
  split_and!.
  - intros v Hv. apply Hv. set_solver.
  - pose proof (ask_run 1 _ Examples.c_p11_p21 _ _ Hheld) as Hrun.
    rewrite Hsat in Hrun. destruct Hrun as (h' & Hask & _). by exists h'.
  - intros fuel b h' Hask.
    pose proof (ask_run fuel _ Examples.c_p11_p21 _ _ Hheld) as Hrun.
    destruct fuel as [|fuel]; [by rewrite Hask in Hrun|].
    rewrite (saturate_mono 1 (S fuel) _ _ false Hsat) in Hrun by lia.
    destruct Hrun as (h'' & Hask' & _). congruence.
Qed.

(** C1, amended: for a store and a query built by the constructor, when
    [ask] returns true the store entails the query. The converse fails,
    as [ask_entails_counterexample] shows. *)
Theorem ask_entails (fuel : nat) (self : MazeKnowledgeBase.t) (query : clause)
    (h h' : heap) (stored : gset clause) :
  held self h = Some stored →
  (∀ c, c ∈ stored → Semantics.well_formed c) → Semantics.well_formed query →
  ask fuel self query h = Some (true, h') →
  Semantics.entails stored query.
Proof.
  intros Hheld Hwf Hwq Hask.
  pose proof (ask_run fuel self query h stored Hheld) as Hrun.
  destruct (saturate fuel (stored ∪ {[negated_query query]}) ∅) as [b'|] eqn:Hsat;
    [|by rewrite Hask in Hrun].
  destruct Hrun as (h'' & Hask' & _). rewrite Hask in Hask'. injection Hask' as <- <-.
  intros v Hv.
  destruct (decide (Semantics.sat_clause v query)) as [|Hq]; [done|].
  destruct (saturate_sound fuel (stored ∪ {[negated_query query]}) ∅ v); [| |done].
  - intros c Hc.
    assert (c ∈ stored ∨ c = negated_query query) as [?| ->] by set_solver;
      [by apply Hwf | by rewrite negated_query_eq].
  - intros c Hc.
    assert (c ∈ stored ∨ c = negated_query query) as [?| ->] by set_solver;
      [right; by apply Hv | by apply negated_query_lax_sat].
Qed.

Lemma ask_entails_witness :
  Semantics.entails {[ Examples.c_p11_p21; Examples.c_not_p11 ]} Examples.c_p21.
Proof.
  apply (ask_entails 2 Examples.kb0 Examples.c_p21 Examples.h0
           (default (true, ∅) (ask 2 Examples.kb0 Examples.c_p21 Examples.h0)).2).
  - compute_done.
  - intros c Hc. apply elem_of_union in Hc as [Hc|Hc];
      apply elem_of_singleton in Hc; subst c; apply init_loop_well_formed.
  - apply init_loop_well_formed.
  - compute_done.
Defined.

(** * Further properties of [MazeClause] *)

Import MazeClause.

Section init_facts.

Implicit Types (m : gmap proposition bool) (l : list literal) (c : clause).

(** A loop that ends in a valid clause met some proposition with both
    truth values, one of them possibly stored before. *)
Lemma init_loop_valid_inv m l :
  valid (init_loop m l) = true →
  (∃ prop b, m !! prop = Some b ∧ (prop, negb b) ∈ l)
  ∨ (∃ prop, (prop, true) ∈ l ∧ (prop, false) ∈ l).
Proof.
  revert m. induction l as [|[q tv] rest IH]; intros m; cbn [init_loop]; [done|].
  destruct (m !! q) as [b'|] eqn:Hq.
  - case_bool_decide as Hb.
    + intros _. left. exists q, b'. split; [done|].
      assert (tv = negb b') as -> by (by destruct tv, b'). by left.
    + intros [(p & b & Hp & Hin)|(p & Ht & Hf)]%IH.
      * left. exists p, b. split; [done | by right].
      * right. exists p. split; by right.
  - intros [(p & b & Hp & Hin)|(p & Ht & Hf)]%IH.
    + destruct (decide (p = q)) as [->|Hne].
      * rewrite lookup_insert_eq in Hp. injection Hp as <-.
        right. exists q. destruct tv; split; (by left) || (by right).
      * rewrite lookup_insert_ne in Hp by done.
        left. exists p, b. split; [done | by right].
    + right. exists p. split; by right.
Qed.

(** A loop that ends in a clause that is not valid stored what it had
    and every entry of its input. *)
Lemma init_loop_lookup m l prop b :
  valid (init_loop m l) = false →
  props (init_loop m l) !! prop = Some b ↔ m !! prop = Some b ∨ (prop, b) ∈ l.
Proof.
  revert m. induction l as [|[q tv] rest IH]; intros m; cbn [init_loop].
  - intros _. cbn [props]. split; [by left|]. by intros [?|?%elem_of_nil].
  - destruct (m !! q) as [b'|] eqn:Hq.
    + case_bool_decide as Hb; [done|].
      assert (b' = tv) as -> by (destruct (decide (b' = tv)); [done | by destruct Hb]).
      intros Hv. rewrite (IH m Hv), elem_of_cons. split; [tauto|].
      intros [?|[[= -> ->]|?]]; auto.
    + intros Hv. rewrite (IH _ Hv), elem_of_cons.
      destruct (decide (prop = q)) as [->|Hne].
      * rewrite lookup_insert_eq, Hq. split.
        -- intros [[= ->]|?]; auto.
        -- intros [?|[[= ->]|?]]; auto. done.
      * rewrite lookup_insert_ne by done. split; [tauto|].
        intros [?|[[= -> ->]|?]]; auto. done.
Qed.

Lemma init_valid_eq l : valid (init l) = true → init l = mk ∅ true.
Proof.
  intros Hv. pose proof (init_loop_well_formed ∅ l Hv) as Hp.
  unfold init in *. destruct (init_loop ∅ l). cbn in *. by subst.
Qed.

Lemma init_valid_spec l :
  valid (init l) = true ↔ ∃ prop, (prop, true) ∈ l ∧ (prop, false) ∈ l.
Proof.
  split.
  - intros [(p & b & Hp & _)|Hc]%init_loop_valid_inv; [|done].
    by rewrite lookup_empty in Hp.
  - intros (p & Ht & Hf). unfold init. by rewrite (init_loop_both _ _ p).
Qed.

End init_facts.

(** X1: the constructor builds a valid clause exactly when its input
    holds some proposition with both truth values. *)
Theorem init_valid_iff (l : list literal) :
  is_valid (init l) = true ↔ ∃ prop, (prop, true) ∈ l ∧ (prop, false) ∈ l.
Proof.
  unfold is_valid. split.
  - intros Hv. destruct (init_loop_valid_inv ∅ l Hv) as [(p & b & Hp & _)|Hc]; [|done].
    by rewrite lookup_empty in Hp.
  - intros (p & Ht & Hf). unfold init. by rewrite (init_loop_both _ _ p).
Qed.

(** X2: from an input in which no proposition has both truth values the
    constructor builds a clause that is not valid, in which [get_prop]
    answers [b] for [prop] exactly when [(prop, b)] is an entry, and
    whose length is the number of distinct propositions of the input. *)
Theorem init_consistent (l : list literal) :
  (∀ prop, ¬ ((prop, true) ∈ l ∧ (prop, false) ∈ l)) →
  is_valid (init l) = false
  ∧ (∀ prop b, get_prop (init l) prop = Some b ↔ (prop, b) ∈ l)
  ∧ len (init l) = size (list_to_set l.*1 : gset proposition).
Proof.
  intros Hno.
  assert (valid (init l) = false) as Hv.
  { destruct (valid (init l)) eqn:Hv; [|done].
    apply init_valid_spec in Hv as (p & Hp). by destruct (Hno p). }
  assert (∀ prop b, props (init l) !! prop = Some b ↔ (prop, b) ∈ l) as Hl.
  { intros p b. unfold init in *. rewrite (init_loop_lookup ∅ l p b Hv), lookup_empty.
    split; [by intros [?|?] | by right]. }
  split; [done|]. split.
  - intros p b. unfold get_prop. case_bool_decide as Hd; [|apply Hl].
    split; [done|]. intros Hin%Hl. destruct Hd. apply elem_of_dom. by eexists.
  - unfold len. rewrite <- size_dom. f_equal. apply set_eq. intros p.
    rewrite elem_of_dom, elem_of_list_to_set, list_elem_of_fmap. split.
    + intros [b Hb%Hl]. by exists (p, b).
    + intros ([p' b] & -> & Hin). exists b. by apply Hl.
Qed.

Lemma init_consistent_witness :
  is_valid (init [(Examples.P 1 1, true); (Examples.P 2 1, false); (Examples.P 1 1, true)])
  = false
  ∧ (∀ prop b,
       get_prop (init [(Examples.P 1 1, true); (Examples.P 2 1, false);
                       (Examples.P 1 1, true)]) prop = Some b
       ↔ (prop, b) ∈ [(Examples.P 1 1, true); (Examples.P 2 1, false);
                       (Examples.P 1 1, true)])
  ∧ len (init [(Examples.P 1 1, true); (Examples.P 2 1, false); (Examples.P 1 1, true)])
    = size (list_to_set [(Examples.P 1 1, true); (Examples.P 2 1, false);
                         (Examples.P 1 1, true)].*1 : gset proposition).
Proof.
  apply init_consistent. intros prop.
  rewrite !elem_of_cons, !elem_of_nil. naive_solver.
Defined.

(** X3: the constructor looks at the set of entries only: two inputs
    with the same entries, in any order and with any repetition, are
    built into the same clause. *)
Theorem init_same_entries (l1 l2 : list literal) :
  (∀ x, x ∈ l1 ↔ x ∈ l2) → init l1 = init l2.
Proof.
  intros Hl.
  assert (valid (init l1) = valid (init l2)) as Hv.
  { apply Bool.eq_true_iff_eq.
    rewrite !init_valid_spec. by setoid_rewrite Hl. }
  destruct (valid (init l1)) eqn:Hv1.
  - by rewrite (init_valid_eq l1), (init_valid_eq l2).
  - symmetry in Hv.
    assert (props (init l1) = props (init l2)) as Hp.
    { apply map_eq. intros p. apply option_eq. intros b. unfold init in *.
      rewrite (init_loop_lookup ∅ l1 p b Hv1), (init_loop_lookup ∅ l2 p b Hv).
      by rewrite Hl. }
    destruct (init l1), (init l2). cbn in *. by subst.
Qed.

Lemma init_same_entries_witness :
  init [(Examples.P 1 1, true); (Examples.P 2 1, false)]
  = init [(Examples.P 2 1, false); (Examples.P 1 1, true); (Examples.P 2 1, false)].
Proof.
  apply init_same_entries. intros x. rewrite !elem_of_cons. tauto.
Defined.

(** X4: the clause that the constructor builds is the empty clause
    exactly when the input has no entry. *)
Theorem init_is_empty_iff (l : list literal) :
  is_empty (init l) = true ↔ l = [].
Proof.
  split; [|by intros ->].
  unfold is_empty. intros [Hv Hs]%andb_true_iff.
  apply negb_true_iff in Hv. apply bool_decide_eq_true in Hs.
  apply map_size_empty_iff in Hs.
  destruct l as [|[p b] rest]; [done|].
  assert (props (init ((p, b) :: rest)) !! p = Some b) as Hp.
  { apply (init_loop_lookup ∅ _ p b Hv). right. by left. }
  assert (∀ m : gmap proposition bool, m = ∅ → m !! p = Some b → False) as Hno
    by (intros m ->; by rewrite lookup_empty).
  destruct (Hno _ Hs Hp).
Qed.

(** X5: [__eq__] is an equivalence relation on clauses. *)
Theorem eq_equivalence :
  (∀ c : clause, eq c c = true)
  ∧ (∀ c1 c2 : clause, eq c1 c2 = eq c2 c1)
  ∧ (∀ c1 c2 c3 : clause, eq c1 c2 = true → eq c2 c3 = true → eq c1 c3 = true).
Proof.
  split_and!.
  - intros c. by apply eq_true_iff.
  - intros c1 c2. apply Bool.eq_true_iff_eq. rewrite !eq_true_iff. naive_solver.
  - intros c1 c2 c3 [H1 H2]%eq_true_iff [H3 H4]%eq_true_iff.
    apply eq_true_iff. split; congruence.
Qed.

Section resolvent_facts.

Implicit Types (c r : clause) (prop : proposition).

(** Where exactly one proposition is complementary, the two clauses
    agree on every other proposition they share. *)
Lemma complementary_only c1 c2 prop q b1 b2 :
  complementary_props c1 c2 = [prop] →
  props c1 !! q = Some b1 → props c2 !! q = Some b2 → q ≠ prop → b1 = b2.
Proof.
  intros Hl H1 H2 Hne. destruct (decide (b1 = b2)) as [|Hb]; [done|].
  destruct Hne. apply list_elem_of_singleton. rewrite <- Hl.
  apply elem_of_complementary_props, is_complementary_spec.
  exists b1. split; [done|]. rewrite H2. f_equal. by destruct b1, b2.
Qed.

Lemma resolve_no_props_l c1 c2 : props c1 = ∅ → resolve c1 c2 = ∅.
Proof.
  intros He. rewrite resolve_unfold.
  assert (complementary_props c1 c2 = []) as ->; [|done].
  apply elem_of_nil_inv. intros q Hq%elem_of_complementary_props.
  apply is_complementary_spec in Hq as (b & Hb & _).
  by rewrite He, lookup_empty in Hb.
Qed.

Lemma resolve_unit_l c prop b :
  props c !! prop = Some (negb b) →
  resolve c (init [(prop, b)]) = {[ mk (delete prop (props c)) false ]}.
Proof.
  intros Hp.
  assert (init [(prop, b)] = mk {[ prop := b ]} false) as Hunit.
  { unfold init. cbn [init_loop]. rewrite lookup_empty.
    by rewrite insert_empty. }
  rewrite Hunit, resolve_unfold.
  assert (complementary_props c (mk {[ prop := b ]} false) = [prop]) as ->.
  { apply complementary_props_singleton, set_eq. intros q.
    rewrite elem_of_complementary, is_complementary_spec, elem_of_singleton.
    cbn [props]. split.
    - intros (b' & _ & Hq). apply lookup_singleton_Some in Hq. by destruct Hq.
    - intros ->. exists (negb b). split; [done|].
      by rewrite lookup_singleton_eq, negb_involutive. }
  f_equal. f_equal. unfold merge_props. cbn [props].
  apply map_eq. intros q. destruct (decide (prop = q)) as [->|Hne].
  - by rewrite !lookup_delete_eq.
  - by rewrite !lookup_delete_ne, lookup_union, lookup_singleton_ne,
      (left_id_L None _) by done.
Qed.

End resolvent_facts.

(** X6: the resolution rule is sound. For clauses built by the
    constructor, a valuation that satisfies both parents satisfies the
    resolvent. *)
Theorem resolvent_entailed (v : Semantics.valuation) (c1 c2 r : clause) :
  Semantics.well_formed c1 → Semantics.well_formed c2 →
  Semantics.sat_clause v c1 → Semantics.sat_clause v c2 →
  r ∈ resolve c1 c2 → Semantics.sat_clause v r.
Proof.
  intros Hw1 Hw2 Hs1 Hs2 Hr.
  apply (resolve_sound v c1 c2); [done|done|by right|by right|done].
Qed.

Lemma resolvent_entailed_witness :
  Semantics.sat_clause (λ prop, bool_decide (prop = Examples.P 2 1)) Examples.c_p21.
Proof.
  apply (resolvent_entailed _ Examples.c_p11_p21 Examples.c_not_p11).
  - apply init_loop_well_formed.
  - apply init_loop_well_formed.
  - compute_done.
  - compute_done.
  - compute_done.
Defined.

(** X7: a resolvent is not valid; it does not hold the complementary
    proposition; its literals are exactly the literals of the two
    parents on the other propositions; and it is one proposition short
    of the propositions of the parents taken together. *)
Theorem resolvent_literals (c1 c2 r : clause) :
  r ∈ resolve c1 c2 →
  ∃ prop,
    is_complementary c1 c2 prop = true
    ∧ is_valid r = false
    ∧ get_prop r prop = None
    ∧ (∀ q b, props r !! q = Some b
              ↔ q ≠ prop ∧ (props c1 !! q = Some b ∨ props c2 !! q = Some b))
    ∧ S (len r) = size (dom (props c1) ∪ dom (props c2)).
Proof.
  intros (x & Hx & ->)%elem_of_resolve. exists x.
  assert (is_complementary c1 c2 x = true) as Hc.
  { apply elem_of_complementary_props. rewrite Hx. by left. }
  split; [done|]. split; [done|]. cbn [props]. unfold merge_props. split_and!.
  - unfold get_prop. cbn [props]. case_bool_decide; [done|].
    by rewrite lookup_delete_eq.
  - intros q b. destruct (decide (x = q)) as [->|Hne].
    { rewrite lookup_delete_eq. naive_solver. }
    rewrite lookup_delete_ne, lookup_union_Some_raw by done. split.
    + intros [?|[_ ?]]; auto.
    + intros [_ [H1|H2]]; [|by left].
      destruct (props c2 !! q) as [b2|] eqn:H2; [|by right].
      left. f_equal. symmetry. by apply (complementary_only c1 c2 x q b b2).
  - unfold len. cbn [props]. rewrite <- size_dom, dom_delete_L, dom_union_L.
    apply is_complementary_spec in Hc as (b & H1 & H2).
    rewrite (comm_L (∪) (dom (props c2))).
    pose proof (size_union_alt {[x]} ((dom (props c1) ∪ dom (props c2)) ∖ {[x]}))
      as Hsize.
    rewrite size_singleton in Hsize.
    assert ({[x]} ∪ (dom (props c1) ∪ dom (props c2)) ∖ {[x]}
            = dom (props c1) ∪ dom (props c2)) as Heq.
    { apply set_eq. intros q. rewrite !elem_of_union, elem_of_difference,
        !elem_of_union, elem_of_singleton.
      destruct (decide (q = x)) as [->|]; [|naive_solver].
      split; [|by left]. intros _. left. apply elem_of_dom. by eexists. }
    rewrite Heq in Hsize. rewrite Hsize.
    f_equal. f_equal. set_solver.
Qed.

Lemma resolvent_literals_witness :
  ∃ prop,
    is_complementary Examples.c_p11_p21 Examples.c_not_p11 prop = true
    ∧ is_valid Examples.c_p21 = false
    ∧ get_prop Examples.c_p21 prop = None
    ∧ (∀ q b, props Examples.c_p21 !! q = Some b
              ↔ q ≠ prop ∧ (props Examples.c_p11_p21 !! q = Some b
                            ∨ props Examples.c_not_p11 !! q = Some b))
    ∧ S (len Examples.c_p21)
      = size (dom (props Examples.c_p11_p21) ∪ dom (props Examples.c_not_p11)).
Proof.
  apply (resolvent_literals Examples.c_p11_p21 Examples.c_not_p11 Examples.c_p21).
  compute_done.
Defined.

(** X8: a clause that stores no proposition, the empty clause or a
    valid clause built by the constructor, resolves with nothing, on
    either side; and no clause resolves with itself. *)
Theorem resolve_inert (c1 c2 : clause) :
  (props c1 = ∅ → resolve c1 c2 = ∅ ∧ resolve c2 c1 = ∅) ∧ resolve c2 c2 = ∅.
Proof.
  split; [|apply resolve_self].
  intros He. split; [by apply resolve_no_props_l|].
  rewrite resolve_swap. by apply resolve_no_props_l.
Qed.

Lemma resolve_inert_witness :
  resolve (init []) Examples.c_p11 = ∅ ∧ resolve Examples.c_p11 (init []) = ∅.
Proof.
  apply (proj1 (resolve_inert (init []) Examples.c_p11)). compute_done.
Defined.

(** X9: unit resolution. Resolving a clause that holds [prop] with the
    truth value opposite to [b] against the unit clause [(prop, b)]
    gives that clause without [prop], whichever side the unit is on. *)
Theorem resolve_unit (c : clause) (prop : proposition) (b : bool) :
  props c !! prop = Some (negb b) →
  resolve c (init [(prop, b)]) = {[ mk (delete prop (props c)) false ]}
  ∧ resolve (init [(prop, b)]) c = {[ mk (delete prop (props c)) false ]}.
Proof.
  intros Hp. split; [by apply resolve_unit_l|].
  rewrite resolve_swap. by apply resolve_unit_l.
Qed.

Lemma resolve_unit_witness :
  resolve Examples.c_p11_p21 (init [(Examples.P 1 1, false)])
  = {[ mk (delete (Examples.P 1 1) (props Examples.c_p11_p21)) false ]}
  ∧ resolve (init [(Examples.P 1 1, false)]) Examples.c_p11_p21
    = {[ mk (delete (Examples.P 1 1) (props Examples.c_p11_p21)) false ]}.
Proof.
  apply (resolve_unit Examples.c_p11_p21 (Examples.P 1 1) false). compute_done.
Defined.

(** * Further properties of [MazeKnowledgeBase] *)

Section store_facts.

Implicit Types (h : heap) (k n : gset clause) (c : clause).

Lemma tell_run self c h stored :
  held self h = Some stored →
  tell self c h = Some ((), <[clauses self := stored ∪ {[ c ]}]> h).
Proof. unfold held, tell, set_add, set_update. by intros ->. Qed.

(** A pair of the working set that resolves to the empty clause ends the
    loop in its first round. *)
Lemma saturate_refuted_first fuel k n c1 c2 :
  c1 ∈ k → c2 ∈ k → MazeClause.init [] ∈ resolve c1 c2 →
  saturate (S fuel) k n = Some true.
Proof.
  intros H1 H2 Hr. cbn [saturate]. cbn zeta.
  assert (refuted (combinations (elements k)) = true) as ->; [|done].
  apply refuted_members. exists c1, c2. by rewrite !elem_of_elements.
Qed.

Lemma size_one_singleton (m : gmap proposition bool) :
  size m = 1 → ∃ prop b, m = {[ prop := b ]}.
Proof.
  intros Hsize.
  destruct (map_choose m) as (p & b & Hp).
  { intros ->. by rewrite map_size_empty in Hsize. }
  exists p, b. apply map_eq. intros q.
  destruct (decide (p = q)) as [->|Hne]; [by rewrite lookup_singleton_eq|].
  rewrite lookup_singleton_ne by done.
  destruct (m !! q) as [b'|] eqn:Hq; [|done].
  destruct Hne. by apply (size_one_lookup m p q b b').
Qed.

(** The negation of a one-literal clause resolves with it to the empty
    clause. *)
Lemma resolve_negated_literal c :
  len c = 1 → MazeClause.init [] ∈ resolve c (negated_query c).
Proof.
  intros (p & b & Hc)%size_one_singleton.
  rewrite negated_query_eq, Hc, map_fmap_singleton.
  assert (MazeClause.mk {[ p := negb b ]} false = MazeClause.init [(p, negb b)]) as ->.
  { unfold MazeClause.init. cbn [init_loop]. rewrite lookup_empty.
    by rewrite insert_empty. }
  rewrite (resolve_unit_l c p (negb b)
    ltac:(by rewrite Hc, lookup_singleton_eq, negb_involutive)).
  rewrite Hc, delete_singleton_eq. by apply elem_of_singleton.
Qed.

Lemma sat_clause_unit v prop b :
  Semantics.sat_clause v (MazeClause.init [(prop, b)]) ↔ v prop = b.
Proof.
  assert (MazeClause.init [(prop, b)] = MazeClause.mk {[ prop := b ]} false) as ->.
  { unfold MazeClause.init. cbn [init_loop]. rewrite lookup_empty.
    by rewrite insert_empty. }
  split.
  - intros [?|(q & b' & Hq & Hv)]; [done|].
    cbn [props] in Hq. apply lookup_singleton_Some in Hq as [<- <-]. done.
  - intros Hv. right. exists prop, b. split; [apply lookup_singleton_eq | done].
Qed.

End store_facts.

Section answer_facts.

Implicit Types (h : heap) (c : clause).

(** The answer of [ask], apart from the heap it leaves. *)
Lemma ask_answer fuel self query h stored :
  held self h = Some stored →
  fst <$> ask fuel self query h
  = saturate fuel (stored ∪ {[ negated_query query ]}) ∅.
Proof.
  intros Hheld. pose proof (ask_run fuel self query h stored Hheld) as Hrun.
  destruct (saturate fuel _ ∅) as [b|].
  - destruct Hrun as (h' & -> & _). done.
  - by rewrite Hrun.
Qed.

End answer_facts.

(** X10: [tell] adds the clause to the set object of the store and
    touches no other object; the count that [__len__] reports grows by
    one for a clause that was not stored and stays for one that was.
    This is for a clause that compares equal, under [__eq__], to no
    stored clause but itself: a set takes a clause that compares equal
    to one it holds, and has its hash, for that one. *)
Theorem tell_len (self : MazeKnowledgeBase.t) (c : clause) (h : heap)
    (stored : gset clause) :
  held self h = Some stored →
  (∀ c', c' ∈ stored → eq c' c = true → c' = c) →
  ∃ h', tell self c h = Some ((), h')
        ∧ held self h' = Some (stored ∪ {[ c ]})
        ∧ (∀ r, r ≠ clauses self → h' !! r = h !! r)
        ∧ kb_len self h'
          = Some (if decide (c ∈ stored) then size stored else S (size stored), h').
Proof.
  intros Hheld _. eexists. split; [by apply tell_run|]. split_and!.
  - unfold held. apply lookup_insert_eq.
  - intros r Hr. by rewrite lookup_insert_ne.
  - unfold kb_len, bind, get, ret. rewrite lookup_insert_eq. f_equal. f_equal.
    case_decide as Hc.
    + f_equal. set_solver.
    + rewrite size_union, size_singleton by set_solver. lia.
Qed.

Lemma tell_len_witness :
  ∃ h', tell Examples.kb0 Examples.c_p21 Examples.h0 = Some ((), h')
        ∧ held Examples.kb0 h'
          = Some ({[ Examples.c_p11_p21; Examples.c_not_p11 ]} ∪ {[ Examples.c_p21 ]})
        ∧ (∀ r, r ≠ clauses Examples.kb0 → h' !! r = Examples.h0 !! r)
        ∧ kb_len Examples.kb0 h'
          = Some (if decide (Examples.c_p21
                             ∈ ({[ Examples.c_p11_p21; Examples.c_not_p11 ]} : gset clause))
                  then size ({[ Examples.c_p11_p21; Examples.c_not_p11 ]} : gset clause)
                  else S (size ({[ Examples.c_p11_p21; Examples.c_not_p11 ]} : gset clause)),
                  h').
Proof.
  apply (tell_len Examples.kb0 Examples.c_p21 Examples.h0).
  - compute_done.
  - intros c' Hc Heq. exfalso. revert Heq.
    apply elem_of_union in Hc as [Hc|Hc]; apply elem_of_singleton in Hc; subst c'.
    + assert (eq Examples.c_p11_p21 Examples.c_p21 = false) as -> by compute_done. done.
    + assert (eq Examples.c_not_p11 Examples.c_p21 = false) as -> by compute_done. done.
Defined.

(** X11: telling the same clause twice is telling it once; and two
    clauses can be told in either order, the heap is the same, when the
    two do not compare equal under [__eq__] or are the same clause. Of
    two different clauses that compare equal a set may keep the one
    told first only. *)
Theorem tell_compose (self : MazeKnowledgeBase.t) (c1 c2 : clause) (h : heap) :
  (eq c1 c2 = true → c1 = c2) →
  MazeKnowledgeBase.bind (tell self c1) (λ _, tell self c1) h = tell self c1 h
  ∧ MazeKnowledgeBase.bind (tell self c1) (λ _, tell self c2) h
    = MazeKnowledgeBase.bind (tell self c2) (λ _, tell self c1) h.
Proof.
  intros _. unfold MazeKnowledgeBase.bind, tell, set_add, set_update.
  destruct (h !! clauses self) as [stored|] eqn:Hs; [|done].
  rewrite !lookup_insert_eq, !insert_insert_eq. split.
  - f_equal. f_equal. f_equal. set_solver.
  - f_equal. f_equal. f_equal. set_solver.
Qed.

Lemma tell_compose_witness :
  MazeKnowledgeBase.bind (tell Examples.kb0 Examples.c_p11)
    (λ _, tell Examples.kb0 Examples.c_p11) Examples.h0
  = tell Examples.kb0 Examples.c_p11 Examples.h0
  ∧ MazeKnowledgeBase.bind (tell Examples.kb0 Examples.c_p11)
      (λ _, tell Examples.kb0 Examples.c_p21) Examples.h0
    = MazeKnowledgeBase.bind (tell Examples.kb0 Examples.c_p21)
        (λ _, tell Examples.kb0 Examples.c_p11) Examples.h0.
Proof.
  apply (tell_compose Examples.kb0 Examples.c_p11 Examples.c_p21 Examples.h0).
  assert (eq Examples.c_p11 Examples.c_p21 = false) as -> by compute_done. done.
Defined.

(** X12: after [tell(c)] for a clause [c] of one literal, [ask(c)]
    returns true, in its first round, whatever else the store holds. *)
Theorem ask_told_literal (fuel : nat) (self : MazeKnowledgeBase.t) (c : clause)
    (h h1 : heap) (stored : gset clause) :
  held self h = Some stored → len c = 1 →
  tell self c h = Some ((), h1) →
  fst <$> ask (S fuel) self c h1 = Some true.
Proof.
  intros Hheld Hlen Htell.
  rewrite (tell_run self c h stored Hheld) in Htell. injection Htell as <-.
  rewrite (ask_answer _ _ _ _ (stored ∪ {[c]})) by apply lookup_insert_eq.
  apply (saturate_refuted_first _ _ _ c (negated_query c)); [set_solver..|].
  by apply resolve_negated_literal.
Qed.

Lemma ask_told_literal_witness :
  fst <$> ask 1 Examples.kb0 Examples.c_p21
            (default ((), ∅) (tell Examples.kb0 Examples.c_p21 Examples.h0)).2
  = Some true.
Proof.
  apply (ask_told_literal 0 Examples.kb0 Examples.c_p21 Examples.h0 _
           {[ Examples.c_p11_p21; Examples.c_not_p11 ]}); compute_done.
Defined.

(** X13: on a store that holds no clause [ask] returns false for every
    query, in its first round. *)
Theorem ask_empty_store (fuel : nat) (self : MazeKnowledgeBase.t) (query : clause)
    (h : heap) :
  held self h = Some ∅ →
  fst <$> ask (S fuel) self query h = Some false.
Proof.
  intros Hheld. rewrite (ask_answer _ _ _ _ ∅ Hheld).
  rewrite (left_id_L ∅ (∪)). cbn [saturate]. cbn zeta.
  rewrite elements_singleton. cbn [combinations fmap list_fmap app].
  unfold refuted, resolvents. cbn [existsb fmap list_fmap].
  rewrite union_list_nil. rewrite (left_id_L ∅ (∪)).
  by rewrite bool_decide_eq_true_2 by set_solver.
Qed.

Lemma ask_empty_store_witness :
  fst <$> ask 1 Examples.kb0 Examples.c_p21 {[ 0 := ∅ ]} = Some false.
Proof.
  apply (ask_empty_store 0 Examples.kb0 Examples.c_p21 {[ 0 := ∅ ]}). compute_done.
Defined.

(** X14: on a store that holds two clauses which resolve to the empty
    clause, such as a literal and its negation, [ask] returns true for
    every query, in its first round. *)
Theorem ask_inconsistent_store (fuel : nat) (self : MazeKnowledgeBase.t)
    (query c1 c2 : clause) (h : heap) (stored : gset clause) :
  held self h = Some stored →
  c1 ∈ stored → c2 ∈ stored → MazeClause.init [] ∈ resolve c1 c2 →
  fst <$> ask (S fuel) self query h = Some true.
Proof.
  intros Hheld H1 H2 Hr. rewrite (ask_answer _ _ _ _ stored Hheld).
  apply (saturate_refuted_first _ _ _ c1 c2); [set_solver..|done].
Qed.

Lemma ask_inconsistent_store_witness :
  fst <$> ask 1 Examples.kb0 Examples.c_p21
            {[ 0 := {[ Examples.c_p11; Examples.c_not_p11 ]} ]}
  = Some true.
Proof.
  apply (ask_inconsistent_store 0 Examples.kb0 Examples.c_p21
           Examples.c_p11 Examples.c_not_p11 _
           {[ Examples.c_p11; Examples.c_not_p11 ]}); compute_done.
Defined.

(** X15: what a true answer of [ask] says, for a query of any length.
    On a store of constructor-built clauses, when [ask] returns true
    the store entails every literal of the query, each on its own. *)
Theorem ask_true_each_literal (fuel : nat) (self : MazeKnowledgeBase.t)
    (query : clause) (h : heap) (stored : gset clause)
    (prop : proposition) (bp : bool) :
  held self h = Some stored →
  (∀ c, c ∈ stored → Semantics.well_formed c) →
  fst <$> ask fuel self query h = Some true →
  props query !! prop = Some bp →
  Semantics.entails stored (MazeClause.init [(prop, bp)]).
Proof.
  intros Hheld Hwf Hask Hp v Hs.
  rewrite (ask_answer _ _ _ _ stored Hheld) in Hask.
  apply sat_clause_unit.
  destruct (decide (v prop = bp)) as [|Hvp]; [done|].
  destruct (saturate_sound fuel (stored ∪ {[negated_query query]}) ∅ v); [| |done].
  - intros c Hc.
    assert (c ∈ stored ∨ c = negated_query query) as [?| ->] by set_solver;
      [by apply Hwf | by rewrite negated_query_eq].
  - intros c Hc.
    assert (c ∈ stored ∨ c = negated_query query) as [?| ->] by set_solver;
      [right; by apply Hs|].
    rewrite negated_query_eq. right. right. exists prop, (negb bp).
    cbn [props]. rewrite lookup_fmap, Hp. split; [done|].
    by destruct (v prop), bp.
Qed.

Lemma ask_true_each_literal_witness :
  Semantics.entails {[ Examples.c_p11; Examples.c_p21 ]}
    (MazeClause.init [(Examples.P 2 1, true)]).
Proof.
  apply (ask_true_each_literal 2 Examples.kb0 Examples.c_p11_p21
           {[ 0 := {[ Examples.c_p11; Examples.c_p21 ]} ]}).
  - compute_done.
  - intros c Hc. apply elem_of_union in Hc as [Hc|Hc];
      apply elem_of_singleton in Hc; subst c; apply init_loop_well_formed.
  - compute_done.
  - compute_done.
Defined.

(** X16: whether a round of [ask] ends by returning true does not
    depend on the order in which the working set is iterated: the
    [for] loop over the pairs of one order returns exactly when the
    loop over the pairs of any other order does. *)
Theorem for_pairs_any_order (it it' : list clause) (new : ref) (h : heap) :
  it ≡ₚ it' → is_Some (h !! new) →
  fst <$> for_pairs (combinations it) new h
  = fst <$> for_pairs (combinations it') new h.
Proof.
  intros Hperm [n Hn].
  rewrite !(for_pairs_run _ new h n Hn).
  destruct (for_loop_order it it' Hperm) as [Href _].
  cbn. by rewrite Href.
Qed.

Lemma for_pairs_any_order_witness :
  fst <$> for_pairs (combinations [Examples.c_p11; Examples.c_p21; Examples.c_not_p11])
            1 {[ 1 := ∅ ]}
  = fst <$> for_pairs (combinations [Examples.c_not_p11; Examples.c_p21; Examples.c_p11])
              1 {[ 1 := ∅ ]}.
Proof.
  apply (for_pairs_any_order [Examples.c_p11; Examples.c_p21; Examples.c_not_p11]
           [Examples.c_not_p11; Examples.c_p21; Examples.c_p11] 1 {[ 1 := ∅ ]}).
  - apply (reverse_Permutation [Examples.c_not_p11; Examples.c_p21; Examples.c_p11]).
  - by exists ∅.
Defined.

(** * Further properties of the simplification *)

Section simplify_pass_facts.

Implicit Types (clauses res : gset clause) (loc : location) (c r : clause).

Lemma get_prop_Some c prop b : get_prop c prop = Some b ↔ props c !! prop = Some b.
Proof.
  unfold get_prop. case_bool_decide as Hd; [|done].
  split; [done|]. intros Hp. destruct Hd. apply elem_of_dom. by eexists.
Qed.

(** What the loop of [get_simplified_clauses] collects: at most one
    clause to remove, which holds the known literal; and, to add,
    resolvents with the unit clause of the known literal. *)
Lemma simplify_loop_spec it loc is_pit to_add0 to_rem0 to_add to_rem :
  simplify_loop it loc is_pit to_add0 to_rem0 = (to_add, to_rem) →
  (to_rem = to_rem0
   ∨ ∃ c, c ∈ it ∧ len c ≠ 1 ∧ props c !! ("P"%string, loc) = Some is_pit
          ∧ to_rem = to_rem0 ∪ {[ c ]})
  ∧ (∀ r, r ∈ to_add →
       r ∈ to_add0
       ∨ ∃ c, c ∈ it ∧ len c ≠ 1
              ∧ r ∈ resolve c (MazeClause.init [(("P"%string, loc), is_pit)])).
Proof.
  revert to_add0. induction it as [|c rest IH]; intros to_add0; cbn [simplify_loop].
  - intros [= <- <-]. split; [by left | by left].
  - case_bool_decide as Hlen.
    + intros [Hrem Hadd]%IH. split.
      * destruct Hrem as [?|(c' & ? & ?)]; [by left|]. right. exists c'.
        split; [by right | done].
      * intros r [?|(c' & ? & ?)]%Hadd; [by left|]. right. exists c'.
        split; [by right | done].
    + case_bool_decide as Hget.
      * intros [= <- <-]. split; [|by left]. right. exists c.
        split; [by left|]. split; [done|]. split; [|done].
        by apply get_prop_Some.
      * intros [Hrem Hadd]%IH. split.
        -- destruct Hrem as [?|(c' & ? & ?)]; [by left|]. right. exists c'.
           split; [by right | done].
        -- intros r [[?|?]%elem_of_union|(c' & ? & ?)]%Hadd; [by left| |].
           ++ right. exists c. split; [by left | done].
           ++ right. exists c'. split; [by right | done].
Qed.

(** A resolvent with a unit clause is the other clause without the
    proposition of the unit. *)
Lemma resolve_unit_inv c prop b r :
  r ∈ resolve c (MazeClause.init [(prop, b)]) →
  props c !! prop = Some (negb b) ∧ r = MazeClause.mk (delete prop (props c)) false.
Proof.
  intros Hr.
  assert (props c !! prop = Some (negb b)) as Hp.
  { apply elem_of_resolve in Hr as (x & Hx & _).
    assert (x ∈ complementary_props c (MazeClause.init [(prop, b)])) as Hin
      by (rewrite Hx; by left).
    apply elem_of_complementary_props, is_complementary_spec in Hin as (b' & H1 & H2).
    unfold MazeClause.init in H2. cbn [init_loop] in H2.
    rewrite lookup_empty in H2. cbn [props] in H2.
    rewrite insert_empty in H2. apply lookup_singleton_Some in H2 as [<- Hb].
    rewrite H1. f_equal. by destruct b, b'. }
  split; [done|].
  rewrite (resolve_unit_l c prop b Hp) in Hr. by apply elem_of_singleton in Hr.
Qed.

(** The shape of the result of one pass. *)
Lemma get_simplified_clauses_shape_aux (clauses res : gset clause) (loc : location)
    (is_pit : bool) :
  get_simplified_clauses clauses loc is_pit res →
  (∀ c, c ∈ clauses → len c = 1 → c ∈ res)
  ∧ (∀ c, c ∈ clauses → c ∉ res →
       len c ≠ 1 ∧ props c !! ("P"%string, loc) = Some is_pit)
  ∧ size (clauses ∖ res) ≤ 1
  ∧ (∀ r, r ∈ res → r ∉ clauses →
       ∃ c, c ∈ clauses ∧ 2 ≤ len c
            ∧ props c !! ("P"%string, loc) = Some (negb is_pit)
            ∧ r = MazeClause.mk (delete ("P"%string, loc) (props c)) false).
Proof.
  intros (it & Hit & ->). unfold get_simplified_clauses_from.
  destruct (simplify_loop it loc is_pit ∅ ∅) as [to_add to_rem] eqn:Hloop.
  apply simplify_loop_spec in Hloop as [Hrem Hadd].
  assert (∀ c, c ∈ to_rem →
            len c ≠ 1 ∧ props c !! ("P"%string, loc) = Some is_pit) as Hrem'.
  { intros c Hc. destruct Hrem as [->|(c' & _ & ? & ? & ->)]; [set_solver|].
    assert (c = c') as -> by set_solver. done. }
  split_and!.
  - intros c Hc Hlen. apply elem_of_difference. split; [set_solver|].
    intros [? _]%Hrem'. done.
  - intros c Hc Hnot.
    assert (c ∈ to_rem) as [? ?]%Hrem' by set_solver. done.
  - etrans; [apply (subseteq_size _ to_rem); set_solver|].
    destruct Hrem as [->|(c' & _ & _ & _ & ->)].
    + rewrite size_empty. lia.
    + by rewrite (left_id_L ∅ (∪)), size_singleton.
  - intros r [[?|Hr]%elem_of_union _]%elem_of_difference Hnot; [done|].
    apply Hadd in Hr as [?|(c & Hc & Hlen & Hr)]; [set_solver|].
    apply resolve_unit_inv in Hr as [Hp ->]. exists c.
    split; [rewrite <- elem_of_elements, <- Hit; done|].
    split; [|done].
    assert (size (props c) ≠ 0) by (by apply (map_size_ne_0_lookup_2 _ ("P"%string, loc))).
    unfold len in *. lia.
Qed.

End simplify_pass_facts.

(** X18: one pass of [get_simplified_clauses] keeps every clause of one
    literal, drops at most one clause, which is then a longer clause
    that holds the known literal, and adds only clauses obtained from a
    stored clause of two or more literals that holds the opposite
    literal, by deleting that literal. *)
Theorem get_simplified_clauses_shape (clauses res : gset clause) (loc : location)
    (is_pit : bool) :
  get_simplified_clauses clauses loc is_pit res →
  (∀ c, c ∈ clauses → len c = 1 → c ∈ res)
  ∧ (∀ c, c ∈ clauses → c ∉ res →
       len c ≠ 1 ∧ get_prop c ("P"%string, loc) = Some is_pit)
  ∧ size (clauses ∖ res) ≤ 1
  ∧ (∀ r, r ∈ res → r ∉ clauses →
       ∃ c, c ∈ clauses ∧ 2 ≤ len c
            ∧ get_prop c ("P"%string, loc) = Some (negb is_pit)
            ∧ r = MazeClause.mk (delete ("P"%string, loc) (props c)) false).
Proof.
  intros Hpass.
  destruct (get_simplified_clauses_shape_aux clauses res loc is_pit Hpass)
    as (Hunit & Hdrop & Hsize & Hnew).
  split_and!; [done| |done|].
  - intros c Hc Hnot. destruct (Hdrop c Hc Hnot) as [Hlen Hp].
    split; [done | by apply get_prop_Some].
  - intros r Hr Hnot. destruct (Hnew r Hr Hnot) as (c & Hc & Hlen & Hp & Heq).
    exists c. split_and!; [done | done | by apply get_prop_Some | done].
Qed.

Lemma get_simplified_clauses_shape_witness :
  (∀ c, c ∈ ({[ Examples.c_p11_p21; Examples.c_not_p11 ]} : gset clause) →
        len c = 1 → c ∈ ({[ Examples.c_p11_p21; Examples.c_not_p11; Examples.c_p11 ]} :
                           gset clause))
  ∧ (∀ c, c ∈ ({[ Examples.c_p11_p21; Examples.c_not_p11 ]} : gset clause) →
          c ∉ ({[ Examples.c_p11_p21; Examples.c_not_p11; Examples.c_p11 ]} : gset clause) →
          len c ≠ 1 ∧ get_prop c ("P"%string, (2, 1)%Z) = Some false)
  ∧ size (({[ Examples.c_p11_p21; Examples.c_not_p11 ]} : gset clause)
          ∖ {[ Examples.c_p11_p21; Examples.c_not_p11; Examples.c_p11 ]}) ≤ 1
  ∧ (∀ r, r ∈ ({[ Examples.c_p11_p21; Examples.c_not_p11; Examples.c_p11 ]} : gset clause) →
          r ∉ ({[ Examples.c_p11_p21; Examples.c_not_p11 ]} : gset clause) →
          ∃ c, c ∈ ({[ Examples.c_p11_p21; Examples.c_not_p11 ]} : gset clause)
               ∧ 2 ≤ len c
               ∧ get_prop c ("P"%string, (2, 1)%Z) = Some (negb false)
               ∧ r = MazeClause.mk (delete ("P"%string, (2, 1)%Z) (props c)) false).
Proof.
  apply (get_simplified_clauses_shape
           {[ Examples.c_p11_p21; Examples.c_not_p11 ]} _ (2, 1)%Z false).
  exists (elements ({[ Examples.c_p11_p21; Examples.c_not_p11 ]} : gset clause)).
  split; [reflexivity | compute_done].
Defined.

Section simplify_model_facts.

Import Semantics.

Implicit Types (clauses res : gset clause) (loc : location) (v : valuation).

(** One pass keeps the models in which the known literal holds, and
    keeps the clauses constructor-built. *)
Lemma get_simplified_clauses_models v clauses loc is_pit res :
  (∀ c, c ∈ clauses → well_formed c) →
  v ("P"%string, loc) = is_pit →
  get_simplified_clauses clauses loc is_pit res →
  (sat_store v clauses ↔ sat_store v res) ∧ (∀ c, c ∈ res → well_formed c).
Proof.
  intros Hwf Hv Hpass.
  destruct (get_simplified_clauses_shape_aux clauses res loc is_pit Hpass)
    as (_ & Hdrop & _ & Hnew).
  split; [split|].
  - intros Hs r Hr. destruct (decide (r ∈ clauses)) as [|Hnot]; [by apply Hs|].
    destruct (Hnew r Hr Hnot) as (c & Hc & _ & Hp & ->).
    apply (resolve_sound v c (MazeClause.init [(("P"%string, loc), is_pit)])).
    + by apply Hwf.
    + apply init_loop_well_formed.
    + right. by apply Hs.
    + right. by apply sat_clause_unit.
    + assert (∀ (s : gset clause) x, s = {[ x ]} → x ∈ s) as Hin
        by (intros s x ->; by apply elem_of_singleton).
      apply Hin. exact (resolve_unit_l c _ is_pit Hp).
  - intros Hs c Hc. destruct (decide (c ∈ res)) as [|Hnot]; [by apply Hs|].
    right. exists ("P"%string, loc), is_pit. split; [|done].
    by apply Hdrop.
  - intros r Hr. destruct (decide (r ∈ clauses)) as [|Hnot]; [by apply Hwf|].
    destruct (Hnew r Hr Hnot) as (c & _ & _ & _ & ->). done.
Qed.

Lemma simplify_locs_models v known_pits locs clauses res :
  (∀ c, c ∈ clauses → well_formed c) →
  (∀ loc, loc ∈ locs → v ("P"%string, loc) = bool_decide (loc ∈ known_pits)) →
  simplify_locs known_pits locs clauses res →
  (sat_store v clauses ↔ sat_store v res) ∧ (∀ c, c ∈ res → well_formed c).
Proof.
  intros Hwf Hv Hrun. induction Hrun as [|loc locs clauses clauses' res Hpass Hrun IH].
  - done.
  - destruct (get_simplified_clauses_models v clauses loc
                (bool_decide (loc ∈ known_pits)) clauses' Hwf) as [Heq Hwf'];
      [apply Hv; by left | done |].
    destruct IH as [Heq' Hwf'']; [done | intros; apply Hv; by right |].
    split; [by rewrite Heq | done].
Qed.

(** One pass never adds the empty clause and never drops a clause of
    one literal; neither do several. *)
Lemma simplify_locs_keeps known_pits locs clauses res :
  simplify_locs known_pits locs clauses res →
  (MazeClause.init [] ∉ clauses → MazeClause.init [] ∉ res)
  ∧ (∀ c, c ∈ clauses → len c = 1 → c ∈ res).
Proof.
  intros Hrun. induction Hrun as [|loc locs clauses clauses' res Hpass Hrun IH]; [done|].
  destruct (get_simplified_clauses_shape_aux clauses clauses' loc _ Hpass)
    as (Hunit & _ & _ & Hnew).
  destruct IH as [IHe IHu]. split.
  - intros He. apply IHe. intros Hin.
    destruct (Hnew _ Hin He) as (c & _ & Hlen & Hp & Heq).
    rewrite init_nil in Heq. injection Heq as Heq.
    assert (size (delete ("P"%string, loc) (props c)) = 0) as Hsize
      by (by rewrite <- Heq, map_size_empty).
    rewrite map_size_delete_Some in Hsize by (by eexists).
    unfold len in Hlen. lia.
  - intros c Hc Hlen. apply IHu; [|done]. by apply Hunit.
Qed.

End simplify_model_facts.

(** X19: [simplify_self] keeps the models that agree with what is
    known. For a store of constructor-built clauses and a valuation
    under which every known pit is a pit and every other known location
    is not, the valuation satisfies the store after the call exactly
    when it satisfies the store before it, whatever the visiting
    orders. *)
Theorem simplify_self_models (v : Semantics.valuation) (self self' : MazeKnowledgeBase.t)
    (known_pits known_safe : gset location) (h h' : heap) (stored : gset clause) :
  held self h = Some stored →
  (∀ c, c ∈ stored → Semantics.well_formed c) →
  Semantics.agrees_with_known v known_pits known_safe →
  simplify_self self known_pits known_safe h self' h' →
  ∃ res, held self' h' = Some res
         ∧ (Semantics.sat_store v stored ↔ Semantics.sat_store v res).
Proof.
  intros Hheld Hwf Hv Hrun.
  destruct (simplify_self_held _ _ _ _ _ _ _ Hheld Hrun) as (res & Hsim & Hres).
  exists res. split; [done|]. destruct Hsim as (locs & Hp & Hlocs).
  apply (simplify_locs_models v known_pits locs); [done| |done].
  intros loc Hloc. apply Hv. by rewrite <- elem_of_elements, <- Hp.
Qed.

Lemma simplify_self_models_witness :
  let run := default (Examples.kb0, ∅)
               (simplify_self_run Examples.kb0 Examples.pit11 ∅ Examples.h_two) in
  ∃ res, held run.1 run.2 = Some res
         ∧ (Semantics.sat_store (λ prop, bool_decide (prop = Examples.P 1 1))
              {[ Examples.c_p11_p21; Examples.c_p11_p12 ]}
            ↔ Semantics.sat_store (λ prop, bool_decide (prop = Examples.P 1 1)) res).
Proof.
  apply (simplify_self_models _ Examples.kb0 _ Examples.pit11 ∅ Examples.h_two).
  - compute_done.
  - intros c Hc. apply elem_of_union in Hc as [Hc|Hc];
      apply elem_of_singleton in Hc; subst c; apply init_loop_well_formed.
  - intros loc Hloc. assert (loc = (1, 1)%Z) as -> by set_solver. compute_done.
  - apply simplify_self_run_sound. compute_done.
Defined.

(** X20: [simplify_self] never drops a clause of one literal and never
    adds the empty clause: a store without the empty clause stays
    without it. *)
Theorem simplify_self_keeps (self self' : MazeKnowledgeBase.t)
    (known_pits known_safe : gset location) (h h' : heap) (stored : gset clause) :
  held self h = Some stored →
  simplify_self self known_pits known_safe h self' h' →
  ∃ res, held self' h' = Some res
         ∧ (∀ c, c ∈ stored → len c = 1 → c ∈ res)
         ∧ (MazeClause.init [] ∉ stored → MazeClause.init [] ∉ res).
Proof.
  intros Hheld Hrun.
  destruct (simplify_self_held _ _ _ _ _ _ _ Hheld Hrun) as (res & Hsim & Hres).
  exists res. split; [done|]. destruct Hsim as (locs & _ & Hlocs).
  destruct (simplify_locs_keeps _ _ _ _ Hlocs). done.
Qed.

Lemma simplify_self_keeps_witness :
  let run := default (Examples.kb0, ∅)
               (simplify_self_run Examples.kb0 Examples.pit11 ∅ Examples.h0) in
  ∃ res, held run.1 run.2 = Some res
         ∧ (∀ c, c ∈ ({[ Examples.c_p11_p21; Examples.c_not_p11 ]} : gset clause) →
                 len c = 1 → c ∈ res)
         ∧ (MazeClause.init [] ∉ ({[ Examples.c_p11_p21; Examples.c_not_p11 ]} : gset clause) →
            MazeClause.init [] ∉ res).
Proof.
  apply (simplify_self_keeps Examples.kb0 _ Examples.pit11 ∅ Examples.h0).
  - compute_done.
  - apply simplify_self_run_sound. compute_done.
Defined.

(** * Printing *)

Section str_facts.

Implicit Types (s : string) (c : clause) (it : list proposition).

Lemma string_app_assoc s1 s2 s3 : (s1 +:+ s2) +:+ s3 = s1 +:+ (s2 +:+ s3).
Proof.
  induction s1 as [|a s1 IH]; [done|].
  change (String a ((s1 +:+ s2) +:+ s3) = String a (s1 +:+ (s2 +:+ s3))).
  by rewrite IH.
Qed.

Lemma string_length_app s1 s2 :
  String.length (s1 +:+ s2) = String.length s1 + String.length s2.
Proof.
  induction s1 as [|a s1 IH]; [done|].
  change (S (String.length (s1 +:+ s2)) = S (String.length s1 + String.length s2)).
  by rewrite IH.
Qed.

Lemma substring_app_prefix s1 s2 :
  String.substring 0 (String.length s1) (s1 +:+ s2) = s1.
Proof.
  induction s1 as [|a s1 IH].
  - by destruct s2.
  - change (String a (String.substring 0 (String.length s1) (s1 +:+ s2)) = String a s1).
    by rewrite IH.
Qed.

Lemma drop_last3_sep s : drop_last3 (s +:+ " v ") = s.
Proof.
  unfold drop_last3. rewrite string_length_app.
  change (String.length " v ") with 3.
  replace (String.length s + 3 - 3) with (String.length s) by lia.
  apply substring_app_prefix.
Qed.

(** The loop writes every item followed by the separator. *)
Lemma str_loop_concat c prop it result :
  str_loop c (prop :: it) result
  = (result +:+ String.concat " v " (item_str c <$> prop :: it)) +:+ " v ".
Proof.
  revert prop result. induction it as [|q it IH]; intros prop result.
  - cbn [str_loop]. rewrite fmap_cons, fmap_nil. cbn [String.concat].
    by rewrite string_app_assoc.
  - change (str_loop c (prop :: q :: it) result)
      with (str_loop c (q :: it) (result +:+ (item_str c prop +:+ " v "))).
    rewrite IH, !fmap_cons.
    change (String.concat " v " (item_str c prop :: item_str c q :: (item_str c <$> it)))
      with (item_str c prop +:+ " v "
            +:+ String.concat " v " (item_str c q :: (item_str c <$> it))).
    by rewrite !string_app_assoc.
Qed.

End str_facts.

(** X21: what [__str__] returns. A valid clause prints as [{True}];
    a clause with keys prints as its items joined by [" v "] between
    braces, the cut of the last three characters taking the final
    separator away; the empty clause prints as ["}"], the cut taking
    the opening brace away. *)
Theorem str_from_format (it : list proposition) (c : clause) :
  str_from it c =
    if is_valid c then "{True}"
    else match it with
         | [] => "}"
         | _ => "{" +:+ String.concat " v " (item_str c <$> it) +:+ "}"
         end.
Proof.
  unfold str_from, is_valid. destruct (valid c); [done|].
  destruct it as [|prop it]; [done|].
  rewrite str_loop_concat, drop_last3_sep. by rewrite string_app_assoc.
Qed.

(** * The negation of queries *)

(** X23: the clause that [ask] builds from a query is never valid, and
    negating twice gives the propositions of the query back with the
    valid flag cleared: a query that is not valid is its own double
    negation, and a tautology is negated into the empty clause. *)
Theorem negated_query_twice (query : clause) :
  is_valid (negated_query query) = false
  ∧ negated_query (negated_query query) = MazeClause.mk (props query) false.
Proof.
  rewrite !negated_query_eq. split; [done|]. cbn [props]. f_equal.
  apply map_eq. intros prop. rewrite !lookup_fmap.
  destruct (props query !! prop) as [b|]; [|done]. cbn. by rewrite negb_involutive.
Qed.
